(** * node-stepify, lib/Step.js: the control handle of a step

    A shallow embedding of [Step.prototype] (done, end, jump, next, vars,
    fulfill, parallel) and the properties its specification states.

    JavaScript values are a small inductive type; the Task objects that
    steps point to live in a store indexed by reference, so that two steps
    of one Task alias the same object.  Every call that leaves Step.js (a
    supplied callback, a method of the Task, console.log) is recorded, in
    order, in an output trace. *)

From stdpp Require Import gmap strings list.

Open Scope Z_scope.

(** ** Values *)

(** Function objects are known by identity only.  [FUser] is a function
    that was handed to the step; [FBound env i] is [done.bind(root, i)], the
    completion callback that [parallel] hands to branch [i], closed over the
    local variables of that call of [parallel] (closure record [env]). *)
Inductive fn : Type :=
| FUser (id : nat)
| FBound (env : nat) (i : nat).

(** Numbers are the integers (step indices and offsets); arrays may have
    holes ([None]), as [result] in [parallel] has while it is filled. *)
#[warnings="-register-all"]
Inductive value : Type :=
| VUndefined
| VNull
| VBool (b : bool)
| VNum (n : Z)
| VStr (s : string)
| VFun (f : fn)
| VErr (msg : string)
| VArr (elems : list (option value)).

Inductive jstype : Type :=
| TUndefined | TObject | TBoolean | TNumber | TString | TFunction.

Definition typeof (v : value) : jstype :=
  match v with
  | VUndefined => TUndefined
  | VNull => TObject
  | VBool _ => TBoolean
  | VNum _ => TNumber
  | VStr _ => TString
  | VFun _ => TFunction
  | VErr _ => TObject
  | VArr _ => TObject
  end.

(** [typeof v === 'function'], which is also what util.isFunction tests. *)
Definition isFunction (v : value) : bool :=
  match v with VFun _ => true | _ => false end.

(** The condition of [if (v)]. *)
Definition truthy (v : value) : bool :=
  match v with
  | VUndefined | VNull => false
  | VBool b => b
  | VNum n => negb (n =? 0)
  | VStr s => negb (String.eqb s "")
  | VFun _ | VErr _ | VArr _ => true
  end.

(** [a[i]] on a list of arguments: [undefined] past the end. *)
Definition arg (i : nat) (args : list value) : value := nth i args VUndefined.

(** ** Steps, Tasks and the store *)

Definition loc := nat.

(** The fields the constructor sets, and the two that the Task sets on the
    steps it owns ([_index], [_debug]). *)
Record Step : Type := mkStep {
  _task : loc;
  _stepName : string;
  _stepHandle : value;
  _knownArgs : list value;
  _index : Z;
  _debug : bool
}.

(** The fields of a Task that Step.js reads and writes, and the results
    that the Task's accumulator collects. *)
Record Task : Type := mkTask {
  _taskName : string;
  _steps : list Step;
  _currIndex : Z;
  _variables : gmap string value;
  _results : list value
}.

Inductive callback : Type :=
| CbGiven (f : value)   (* a function passed to [parallel] *)
| CbDone.               (* [this.done], the default *)

(** The variables one call of [parallel] closes over. *)
Record ParEnv : Type := mkParEnv {
  p_root : Step;
  p_length : nat;                       (* arr.length *)
  p_callback : callback;
  p_completed : Z;
  p_result : list (option value)
}.

Inductive receiver : Type :=
| ThisStep (s : Step)
| ThisTask (l : loc)
| ThisUndefined.

(** What Step.js calls outside itself. *)
Inductive effect : Type :=
| ECall (f : value) (this : receiver) (args : list value)
| ETaskRun (l : loc) (index : Z) (args : list value)
| ETaskEmit (l : loc) (event : string) (args : list value)
| ETaskResult (l : loc) (args : list value)
| ELog (fmt : string) (args : list value).

Record State : Type := mkState {
  tasks : gmap loc Task;
  closures : list ParEnv;
  out : list effect
}.

Definition set_tasks (f : gmap loc Task → gmap loc Task) (st : State) : State :=
  mkState (f (tasks st)) (closures st) (out st).
Definition set_closures (f : list ParEnv → list ParEnv) (st : State) : State :=
  mkState (tasks st) (f (closures st)) (out st).
Definition set_out (f : list effect → list effect) (st : State) : State :=
  mkState (tasks st) (closures st) (f (out st)).

(** [emits es st]: [st] after the calls [es] were made. *)
Definition emits (es : list effect) (st : State) : State :=
  set_out (λ o, o ++ es) st.

(** ** The monad: state, output and exceptions *)

Inductive completion (A : Type) : Type :=
| Normal (a : A)
| Throw (e : value).
Arguments Normal {A} a.
Arguments Throw {A} e.

Definition M (A : Type) : Type := State → completion A * State.

Definition ret {A} (a : A) : M A := λ st, (Normal a, st).
Definition throw {A} (e : value) : M A := λ st, (Throw e, st).
Definition bind {A B} (m : M A) (k : A → M B) : M B :=
  λ st, match m st with
        | (Normal a, st') => k a st'
        | (Throw e, st') => (Throw e, st')
        end.

Declare Scope js_scope.
Delimit Scope js_scope with js.
Notation "'let*' x := c 'in' k" := (bind c (λ x, k))
  (at level 10, x name, c at level 100, k at level 200) : js_scope.
Notation "c >> k" := (bind c (λ _, k))
  (at level 100, k at level 200, right associativity) : js_scope.
Open Scope js_scope.

Definition effect_ (e : effect) : M unit := λ st, (Normal tt, emits [e] st).

(** Reading a property of [this._task]: a TypeError when there is no such
    object. *)
Definition TypeError : value := VErr "TypeError".

Definition get_task (l : loc) : M Task :=
  λ st, match tasks st !! l with
        | Some t => (Normal t, st)
        | None => (Throw TypeError, st)
        end.

Definition put_task (l : loc) (t : Task) : M unit :=
  λ st, (Normal tt, set_tasks (λ ts, <[l := t]> ts) st).

(** [console.log(fmt, ...)] when the step is in debug mode. *)
Definition debug_log (this : Step) (fmt : string) (args : list value) : M unit :=
  if _debug this then effect_ (ELog fmt args) else ret tt.

(** A call of a value that was supplied from outside.  The trace entry
    marks where control leaves Step.js; what the callee does then, a throw
    included, is the callee's and is not modelled: the properties below
    are about the calls that Step.js makes. *)
Definition call (f : value) (this : receiver) (args : list value) : M value :=
  if isFunction f then effect_ (ECall f this args) >> ret VUndefined
  else throw TypeError.

(** ** The Task's methods that Step.js calls *)

(** Modelled from the spec: Task.prototype._getStep (Task.js is not among
    the sources).  A name is matched exactly against the steps' names, a
    number is an absolute index, and anything that names no step gives the
    not-found result, without clamping. *)
Definition _getStep (t : Task) (key : value) : option Step :=
  match key with
  | VStr name => List.find (λ s, String.eqb (_stepName s) name) (_steps t)
  | VNum i => if 0 <=? i then _steps t !! Z.to_nat i else None
  | _ => None
  end.

Definition set_currIndex (i : Z) (t : Task) : Task :=
  mkTask (_taskName t) (_steps t) i (_variables t) (_results t).

(** Modelled from the spec: Task.prototype._run (Task.js is not among the
    sources).  It makes [index] the current index and runs the handler of
    that step with the arguments; an index outside the sequence is fatal.
    The handler is outside Step.js: the trace entry stands for its run,
    and what it does then is not modelled. *)
Definition _run (l : loc) (index : Z) (args : list value) : M value :=
  let* t := get_task l in
  if (0 <=? index) && (index <? Z.of_nat (length (_steps t))) then
    put_task l (set_currIndex index t) >>
    effect_ (ETaskRun l index args) >>
    ret VUndefined
  else throw (VErr "step index out of range").

(** [task.emit(event, ...args)]: the listeners are outside Step.js. *)
Definition emit (l : loc) (event : string) (args : list value) : M value :=
  let* _ := get_task l in
  effect_ (ETaskEmit l event args) >>
  ret VUndefined.

(** ** Step.prototype *)

(** [_proto.end] *)
Definition end_ (this : Step) (arguments : list value) : M value :=
  let err := arg 0 arguments in
  (if _debug this then
     let* t := get_task (_task this) in
     effect_ (ELog "Task `%s` has ended in the step `%s`."
                   [VStr (_taskName t); VStr (_stepName this)])
   else ret tt) >>
  emit (_task this) "done" [if truthy err then err else VNull].

(** The function [targetStep] inside [_proto.jump]. *)
Definition targetStep (task : Task) (currIndex : Z) (step : value) : option Step :=
  match step with
  | VStr _ => _getStep task step
  | VNum n => _getStep task (VNum (if n <? 0 then currIndex + n else n))
  | _ => None
  end.

(** [_proto.jump] *)
Definition jump (this : Step) (arguments : list value) : M value :=
  let step := arg 0 arguments in
  match step with
  | VUndefined => throw (VErr "You must access the step you wish to jump to.")
  | _ =>
    let* task := get_task (_task this) in
    let currIndex := _currIndex task in
    match targetStep task currIndex step with
    | None => throw (VErr "The target step will jump to was not exists.")
    | Some target =>
      let targetIndex := _index target in
      if targetIndex =? currIndex then ret VUndefined
      else
        debug_log this "Jump step to %s." [VStr (_stepName target)] >>
        _run (_task this) targetIndex (tail arguments)
    end
  end.

(** [_proto.next] *)
Definition next (this : Step) (arguments : list value) : M value :=
  let* task := get_task (_task this) in
  let curIndex := _currIndex task in
  let args := arguments in
  if curIndex + 1 <? Z.of_nat (length (_steps task)) then
    jump this (VNum (curIndex + 1) :: args)
  else
    end_ this [].

(** [_proto.done] *)
Definition done (this : Step) (arguments : list value) : M value :=
  let args := arguments in
  (* err = args.shift() *)
  let err := arg 0 args in
  let args := tail args in
  let err := match err with VUndefined => VNull | _ => err end in
  (* callback = typeof args[0] === 'function' ? args.shift() : this.next *)
  let shifted := isFunction (arg 0 args) in
  let callback := arg 0 args in
  let args := if shifted then tail args else args in
  if truthy err then
    end_ this [err]
  else
    debug_log this "Step `%s` has done and start to run next step."
              [VStr (_stepName this)] >>
    if shifted then call callback (ThisStep this) args
    else next this args.

(** ** vars, fulfill *)

Definition set_variables (f : gmap string value → gmap string value) (t : Task) : Task :=
  mkTask (_taskName t) (_steps t) (_currIndex t) (f (_variables t)) (_results t).
Definition set_results (f : list value → list value) (t : Task) : Task :=
  mkTask (_taskName t) (_steps t) (_currIndex t) (_variables t) (f (_results t)).

Section Vars.
(** The property key that [obj[key]] uses for a value [key]; it is the
    language's and not Step.js's, and nothing below depends on which
    function it is. *)
Variable ToPropertyKey : value → string.

(** [_proto.vars] *)
Definition vars (this : Step) (arguments : list value) : M value :=
  let len := length arguments in
  let key := arg 0 arguments in
  let value := arg 1 arguments in
  if (len =? 1)%nat then
    let* task := get_task (_task this) in
    ret (default VUndefined (_variables task !! ToPropertyKey key))
  else if (len =? 2)%nat then
    let* task := get_task (_task this) in
    put_task (_task this) (set_variables (λ vs, <[ToPropertyKey key := value]> vs) task) >>
    ret value
  else ret VNull.
End Vars.

(** Modelled from the spec: Task.prototype._result, the Task's fulfillment
    accumulator (Task.js is not among the sources).  Called on the Task, it
    appends the value it is given, its first argument, to the results. *)
Definition _result (l : loc) (args : list value) : M value :=
  let* t := get_task l in
  put_task l (set_results (λ rs, rs ++ [arg 0 args]) t) >>
  effect_ (ETaskResult l args) >>
  ret VUndefined.

(** [Array.prototype.forEach], which is also what util._.each does on an
    array: the function is called for every index that is not a hole, in
    order, with the element and its index (and the array, which the caller
    has). *)
Fixpoint forEach_from (i : nat) (a : list (option value))
    (f : value → nat → M value) : M unit :=
  match a with
  | [] => ret tt
  | None :: a' => forEach_from (S i) a' f
  | Some x :: a' => f x i >> forEach_from (S i) a' f
  end.

Definition forEach (a : list (option value)) (f : value → nat → M value) : M unit :=
  forEach_from 0 a f.

(** [_proto.fulfill] *)
Definition fulfill (this : Step) (arguments : list value) : M value :=
  let args := Some <$> arguments in
  let task := _task this in
  (* var fn = task._result *)
  let* _ := get_task task in
  (* args.forEach(fn.bind(this._task)) *)
  forEach args (λ x i, _result task [x; VNum (Z.of_nat i); VArr args]) >>
  ret VUndefined.

(** ** parallel *)

(** [a[n] = r] on an array: past the end, the array grows and the indices in
    between are holes. *)
Definition array_set (a : list (option value)) (n : nat) (r : value)
    : list (option value) :=
  if (n <? length a)%nat then <[n := Some r]> a
  else a ++ replicate (n - length a) None ++ [Some r].

(** [a[n]]: [undefined] at a hole and past the end. *)
Definition array_get (a : list (option value)) (n : nat) : value :=
  default VUndefined (mjoin (a !! n)).

Definition new_env (env : ParEnv) : M nat :=
  λ st, (Normal (length (closures st)), set_closures (λ cs, cs ++ [env]) st).

Definition get_env (e : nat) : M ParEnv :=
  λ st, match closures st !! e with
        | Some env => (Normal env, st)
        | None => (Throw TypeError, st)
        end.

Definition put_env (e : nat) (env : ParEnv) : M unit :=
  λ st, (Normal tt, set_closures (λ cs, <[e := env]> cs) st).

(** [callback.call(this, ...)] and [callback.apply(this, [...])] in
    [parallel]: the default callback is this file's [done]. *)
Definition invoke (cb : callback) (this : Step) (args : list value) : M value :=
  match cb with
  | CbGiven f => call f (ThisStep this) args
  | CbDone => done this args
  end.

(** The function [done] inside [_proto.parallel], as [done.bind(root, n)]
    called with [arguments]; [e] is the closure it belongs to. *)
Definition parallel_done (e : nat) (n : nat) (arguments : list value) : M value :=
  let err := arg 0 arguments in
  let r := arg 1 arguments in
  let* env := get_env e in
  let this := p_root env in
  let callback := p_callback env in
  if truthy err then
    invoke callback this [err] >> ret VUndefined
  else
    (* make sure the result array has the same index as arr *)
    let result := array_set (p_result env) n r in
    let completed := p_completed env + 1 in
    put_env e (mkParEnv (p_root env) (p_length env) callback completed result) >>
    if completed >=? Z.of_nat (p_length env) then
      invoke callback this [VNull; VArr result] >> ret VUndefined
    else ret VUndefined.

Definition not_a_function_message : string :=
  "Every element should be a function                 as the first one does.".

(** [_proto.parallel]; [arr] is the first argument, [rest] the others
    ([util.slice(arguments, 1)]). *)
Definition parallel (this : Step) (arr : list (option value)) (rest : list value)
    : M value :=
  let root := this in
  let args := rest in
  if isFunction (array_get arr 0) then
    (* each element should be a function in this case *)
    let callback := if isFunction (arg 0 args) then CbGiven (arg 0 args) else CbDone in
    let* e := new_env (mkParEnv root (length arr) callback 0 []) in
    forEach arr (λ fn i,
      if negb (isFunction fn) then throw (VErr not_a_function_message)
      else call fn ThisUndefined [VFun (FBound e i)]) >>
    ret VUndefined
  else
    let iterator := arg 0 args in
    let callback := if isFunction (arg 1 args) then CbGiven (arg 1 args) else CbDone in
    let* e := new_env (mkParEnv root (length arr) callback 0 []) in
    forEach arr (λ a i, call iterator ThisUndefined [a; VFun (FBound e i)]) >>
    ret VUndefined.

(** The branches' side: a schedule is the sequence of calls that the
    branches make to their completion callbacks, each with the index the
    callback is bound to and the arguments of the call.  An exception of one
    call goes to the branch that made it; the next call happens all the
    same.  A branch that calls back before [parallel] has returned acts on
    the same closure record: running the schedule after the call puts the
    trace in another order and changes nothing else. *)
Fixpoint completions (e : nat) (sched : list (nat * list value)) (st : State) : State :=
  match sched with
  | [] => st
  | (n, a) :: sched' => completions e sched' (parallel_done e n a st).2
  end.

(** ** Well-formed Tasks, and the traces of the methods *)

(** The Task numbers its steps: the step at position [i] has [_index] [i]. *)
Definition steps_indexed (t : Task) : Prop :=
  ∀ (i : nat) (s : Step), _steps t !! i = Some s → _index s = Z.of_nat i.

(** The calls of supplied functions in a trace. *)
Definition is_call (e : effect) : bool :=
  match e with ECall _ _ _ => true | _ => false end.

Definition calls (es : list effect) : list effect := List.filter is_call es.

(** The trace that [end] leaves for a step of Task [t]. *)
Definition end_trace (this : Step) (t : Task) (err : value) : list effect :=
  (if _debug this then
     [ELog "Task `%s` has ended in the step `%s`."
           [VStr (_taskName t); VStr (_stepName this)]]
   else []) ++
  [ETaskEmit (_task this) "done" [err]].

Definition done_trace (this : Step) : list effect :=
  if _debug this then
    [ELog "Step `%s` has done and start to run next step." [VStr (_stepName this)]]
  else [].

Definition jump_trace (this : Step) (target : Step) : list effect :=
  if _debug this then [ELog "Jump step to %s." [VStr (_stepName target)]] else [].

(** ** What the properties are stated with *)

(** [ref] names no step of [t]: it is undefined, an unknown name, an index
    outside the sequence (a negative number counts from the current index),
    or neither a string nor a number. *)
Definition names_no_step (t : Task) (ref : value) : Prop :=
  match ref with
  | VStr name => ∀ s, s ∈ _steps t → _stepName s ≠ name
  | VNum n =>
    if n <? 0 then
      _currIndex t + n < 0 ∨ Z.of_nat (length (_steps t)) ≤ _currIndex t + n
    else Z.of_nat (length (_steps t)) ≤ n
  | _ => True
  end.

(** The trace of the accumulator's calls for the values [xs], the first of
    them at index [i] of the array [whole]. *)
Definition result_calls (l : loc) (whole : list (option value)) (i : nat)
    (xs : list value) : list effect :=
  imap (λ j x, ETaskResult l [x; VNum (Z.of_nat (i + j)); VArr whole]) xs.

(** [framed m]: [m] neither reads nor writes the closure records. *)
Definition framed {A} (m : M A) : Prop :=
  ∀ st cs, m (set_closures (λ _, cs) st) =
           ((m st).1, set_closures (λ _, cs) (m st).2).

(** An entry [(n, args)] is the call [done.bind(root, n)(...args)]: it
    reports an error when its first argument is truthy, and otherwise the
    result that is its second argument. *)
Definition failed (c : nat * list value) : bool := truthy (arg 0 c.2).

Definition errors (sched : list (nat * list value)) : list value :=
  (λ c, arg 0 c.2) <$> List.filter failed sched.

Definition successes (sched : list (nat * list value)) : list (nat * list value) :=
  List.filter (λ c, negb (failed c)) sched.

(** The array [result] after the successful completions of a schedule. *)
Definition fill (a : list (option value)) (sched : list (nat * list value))
    : list (option value) :=
  foldl (λ a c, array_set a c.1 (arg 1 c.2)) a (successes sched).

(** The callback called once for each argument list, in order. *)
Fixpoint invokes (cb : callback) (this : Step) (argss : list (list value))
    (st : State) : State :=
  match argss with
  | [] => st
  | a :: argss' => invokes cb this argss' (invoke cb this a st).2
  end.

(** The closure record after the completions of a schedule. *)
Definition env_after (env : ParEnv) (sched : list (nat * list value)) : ParEnv :=
  mkParEnv (p_root env) (p_length env) (p_callback env)
           (p_completed env + Z.of_nat (length (successes sched)))
           (fill (p_result env) sched).

(** The callback that [parallel] settles on. *)
Definition parallel_callback (arr : list (option value)) (rest : list value)
    : callback :=
  if isFunction (array_get arr 0) then
    if isFunction (arg 0 rest) then CbGiven (arg 0 rest) else CbDone
  else
    if isFunction (arg 1 rest) then CbGiven (arg 1 rest) else CbDone.

(** Every branch calls its completion callback once: the indices of the
    schedule are those of the items, in some order. *)
Definition each_once (n : nat) (sched : list (nat * list value)) : Prop :=
  sched.*1 ≡ₚ seq 0 n.

(** The calls of a callback on a step (the branches themselves are called
    on no object). *)
Definition is_callback_call (x : effect) : bool :=
  match x with ECall _ (ThisStep _) _ => true | _ => false end.

(** Exactly once, as the specification has it: in the trace that the
    completions of a schedule add, there is one call of the callback. *)
Definition called_exactly_once (this : Step) (items rest : list value)
    (st : State) (sched : list (nat * list value)) : Prop :=
  let st1 := (parallel this (Some <$> items) rest st).2 in
  length (List.filter is_callback_call
            (drop (length (out st1))
                  (out (completions (length (closures st)) sched st1)))) = 1%nat.

(** ** A Task of three steps and a few functions, for the examples *)

Definition demo_task : Task :=
  mkTask "t"
    [mkStep 0%nat "load" (VFun (FUser 10)) [] 0 false;
     mkStep 0%nat "process" (VFun (FUser 11)) [] 1 false;
     mkStep 0%nat "save" (VFun (FUser 12)) [] 2 true]
    1 ∅ [].

Definition demo_step (i : nat) : Step :=
  nth i (_steps demo_task) (mkStep 0%nat "" VUndefined [] 0 false).

Definition demo_state : State := mkState {[ 0%nat := demo_task ]} [] [].

Definition last_state : State :=
  mkState {[ 0%nat := set_currIndex 2 demo_task ]} [] [].

Definition demo_key (k : value) : string :=
  match k with VStr s => s | _ => "" end.

Definition two_tasks : State :=
  mkState {[ 0%nat := demo_task; 1%nat := demo_task ]} [] [].

Definition other_step : Step := mkStep 1%nat "load" (VFun (FUser 10)) [] 0 false.

Definition fnA : value := VFun (FUser 20).
Definition fnB : value := VFun (FUser 21).
Definition fnC : value := VFun (FUser 22).
Definition user_done : value := VFun (FUser 30).

Definition started (items : list value) : State :=
  (parallel (demo_step 1) (Some <$> items) [user_done] demo_state).2.

(** ** More of Step.prototype, and what further properties are stated with *)

(** [_proto.wrap]: the function it returns passes its arguments to [done]
    on the step, whatever it is called on. *)
Definition wrap (this : Step) : receiver → list value → M value :=
  let root := this in
  λ _ arguments, done root arguments.

(** The steps are numbered and the current index is one of theirs. *)
Definition task_wf (t : Task) : Prop :=
  steps_indexed t ∧ 0 ≤ _currIndex t < Z.of_nat (length (_steps t)).

(** The indices the Task was run from, and the payloads of its 'done'
    events, in a trace. *)
Definition runs_of (es : list effect) : list Z :=
  es ≫= λ x, match x with ETaskRun _ i _ => [i] | _ => [] end.

Definition dones_of (es : list effect) : list (list value) :=
  es ≫= λ x, match x with ETaskEmit _ "done" args => [args] | _ => [] end.

(** The step that is running: the one at the current index. *)
Definition current_step (t : Task) : option Step :=
  if 0 <=? _currIndex t then _steps t !! Z.to_nat (_currIndex t) else None.

(** Handlers that do nothing but call [this.next()]: [k] of them in a row,
    each on the step that is then current. *)
Fixpoint nexts (k : nat) (l : loc) (st : State) : State :=
  match k with
  | O => st
  | S k' =>
    match tasks st !! l ≫= current_step with
    | Some s => nexts k' l (next s [] st).2
    | None => st
    end
  end.

(** [end] called once for each argument list, in order. *)
Fixpoint ends (this : Step) (argss : list (list value)) (st : State) : State :=
  match argss with
  | [] => st
  | a :: argss' => ends this argss' (end_ this a st).2
  end.

(** What the callback is called with when successful completions keep
    coming: (null, result) at every completion from the [n]-th on, with
    [result] as it is at that moment. *)
Definition fires (n : nat) (sched : list (nat * list value)) : list (list value) :=
  (λ m, [VNull; VArr (fill [] (take m sched))]) <$> seq n (S (length sched) - n).

(** The completion callbacks that the branch calls of a trace handed out:
    the last argument of every call made on no object. *)
Definition handed_out (es : list effect) : list value :=
  es ≫= λ x, match x with
             | ECall _ ThisUndefined args => option_list (last args)
             | _ => []
             end.

(** A branch calls a value it was handed.  [done.bind(root, i)] of closure
    record [e] is the inner [done] of that call of [parallel]; [parallel]
    hands out nothing else, and a call of anything else runs nothing of
    Step.js. *)
Definition call_handed (c : value) (args : list value) : M value :=
  match c with
  | VFun (FBound e i) => parallel_done e i args
  | _ => ret VUndefined
  end.

(** The branches' side again, with the callbacks themselves: each entry is
    a callback that was handed out and the arguments it is called with. *)
Fixpoint callbacks (sched : list (value * list value)) (st : State) : State :=
  match sched with
  | [] => st
  | (c, a) :: sched' => callbacks sched' (call_handed c a st).2
  end.

(** The index that a completion callback is bound to. *)
Definition bound_index (c : value) : nat :=
  match c with VFun (FBound _ i) => i | _ => 0%nat end.

(** The callback [f] receives (null, results), for some results, after the
    branches' calls. *)
Definition receives_results (this : Step) (items rest : list value) (st : State)
    (sched : list (value * list value)) (f : value) : Prop :=
  ∃ results,
    ECall f (ThisStep this) [VNull; VArr results]
    ∈ out (callbacks sched (parallel this (Some <$> items) rest st).2).

(** * Properties *)

(** ** The state and the monad *)

Lemma emits_nil st : emits [] st = st.
Proof. destruct st as [ts cs o]. unfold emits, set_out. simpl. by rewrite app_nil_r. Qed.

Lemma emits_emits es1 es2 st : emits es2 (emits es1 st) = emits (es1 ++ es2) st.
Proof. unfold emits, set_out. simpl. by rewrite app_assoc. Qed.

Lemma tasks_emits es st : tasks (emits es st) = tasks st.
Proof. reflexivity. Qed.

Lemma closures_emits es st : closures (emits es st) = closures st.
Proof. reflexivity. Qed.

Lemma out_emits es st : out (emits es st) = out st ++ es.
Proof. reflexivity. Qed.

Lemma bind_Normal {A B} (m : M A) (k : A → M B) st a st' :
  m st = (Normal a, st') → bind m k st = k a st'.
Proof. intros H. unfold bind. by rewrite H. Qed.

Lemma bind_Throw {A B} (m : M A) (k : A → M B) st e st' :
  m st = (Throw e, st') → bind m k st = (Throw e, st').
Proof. intros H. unfold bind. by rewrite H. Qed.

Lemma get_task_Some l t st :
  tasks st !! l = Some t → get_task l st = (Normal t, st).
Proof. intros H. unfold get_task. by rewrite H. Qed.

Lemma get_task_None l st :
  tasks st !! l = None → get_task l st = (Throw TypeError, st).
Proof. intros H. unfold get_task. by rewrite H. Qed.

Lemma debug_log_spec this fmt args st :
  debug_log this fmt args st =
  (Normal tt, emits (if _debug this then [ELog fmt args] else []) st).
Proof.
  unfold debug_log. destruct (_debug this); [reflexivity|].
  by rewrite emits_nil.
Qed.

Lemma calls_app es1 es2 : calls (es1 ++ es2) = calls es1 ++ calls es2.
Proof. unfold calls. induction es1 as [|e es1 IH]; simpl; [done|]. destruct (is_call e); simpl; by rewrite IH. Qed.

(** ** end *)

Lemma end_spec this args t st :
  tasks st !! _task this = Some t →
  end_ this args st =
  (Normal VUndefined,
   emits (end_trace this t (if truthy (arg 0 args) then arg 0 args else VNull)) st).
Proof.
  intros Ht. unfold end_, end_trace, emit.
  destruct (_debug this).
  - erewrite bind_Normal; last first.
    { erewrite bind_Normal; [|by apply get_task_Some]. reflexivity. }
    erewrite bind_Normal; [|by apply get_task_Some].
    unfold bind, effect_, ret. by rewrite emits_emits.
  - unfold bind at 1, ret at 1.
    erewrite bind_Normal; [|by apply get_task_Some].
    reflexivity.
Qed.

Lemma end_no_task this args st :
  tasks st !! _task this = None →
  end_ this args st = (Throw TypeError, st).
Proof.
  intros Ht. unfold end_, emit.
  destruct (_debug this).
  - erewrite bind_Throw; [done|].
    erewrite bind_Throw; [done|]. by apply get_task_None.
  - unfold bind at 1, ret at 1.
    erewrite bind_Throw; [done|]. by apply get_task_None.
Qed.

Lemma calls_end_trace this t err : calls (end_trace this t err) = [].
Proof. unfold end_trace. by destruct (_debug this). Qed.

(** ** done *)

Lemma done_truthy this err rest st :
  truthy err = true → done this (err :: rest) st = end_ this [err] st.
Proof.
  intros Herr. unfold done. simpl.
  destruct err; simpl in *; try discriminate; by rewrite ?Herr.
Qed.

(** C2. [done(err, ...rest)] with a truthy [err] is [end(err)], whatever
    [rest] is: no supplied function is called (the calls in the trace are
    those that were there before), and the Task emits 'done' with [err]. *)
Theorem done_error_ends (this : Step) (err : value) (rest : list value)
    (st : State) :
  truthy err = true →
  done this (err :: rest) st = end_ this [err] st
  ∧ calls (out (done this (err :: rest) st).2) = calls (out st)
  ∧ (∀ t, tasks st !! _task this = Some t →
       done this (err :: rest) st =
         (Normal VUndefined, emits (end_trace this t err) st)).
Proof.
  intros Herr.
  pose proof (done_truthy this err rest st Herr) as Hd.
  assert (He : ∀ t, tasks st !! _task this = Some t →
            end_ this [err] st = (Normal VUndefined, emits (end_trace this t err) st)).
  { intros t Ht. rewrite (end_spec this [err] t st Ht).
    change (arg 0 [err]) with err. by rewrite Herr. }
  split; [exact Hd|]. split.
  - rewrite Hd. destruct (tasks st !! _task this) as [t|] eqn:Ht.
    + rewrite (He t eq_refl). simpl.
      by rewrite calls_app, calls_end_trace, app_nil_r.
    + by rewrite end_no_task.
  - intros t Ht. rewrite Hd. by apply He.
Qed.

Lemma done_error_ends_witness :
  done (demo_step 1) [VErr "x"; VFun (FUser 1)] demo_state =
    (Normal VUndefined,
     emits [ETaskEmit 0%nat "done" [VErr "x"]] demo_state).
Proof.
  exact (proj2 (proj2 (done_error_ends (demo_step 1) (VErr "x") [VFun (FUser 1)]
                         demo_state eq_refl))
               demo_task eq_refl).
Defined.

(** C6. [done(err, ...rest)] with a falsy [err]: a function at the head of
    [rest] is the continuation and is called on the step with the arguments
    after it; otherwise the continuation is [next], called on the step with
    all of [rest].  Nothing else happens (but the debug line): [done] itself
    emits no 'done'.  So [done(undefined, cb, a, b)] calls [cb] on the step
    with [(a, b)]. *)
Theorem done_success_continues (this : Step) (err : value) (rest : list value)
    (st : State) :
  truthy err = false →
  (∀ cb args, isFunction cb = true → rest = cb :: args →
     done this (err :: rest) st =
       (Normal VUndefined,
        emits (done_trace this ++ [ECall cb (ThisStep this) args]) st))
  ∧ (isFunction (arg 0 rest) = false →
     done this (err :: rest) st = next this rest (emits (done_trace this) st))
  ∧ (∀ cb a b, isFunction cb = true →
     done this [VUndefined; cb; a; b] st =
       (Normal VUndefined,
        emits (done_trace this ++ [ECall cb (ThisStep this) [a; b]]) st)).
Proof.
  intros Herr.
  assert (Hcb : ∀ e cb args, truthy e = false → isFunction cb = true →
            done this (e :: cb :: args) st =
              (Normal VUndefined,
               emits (done_trace this ++ [ECall cb (ThisStep this) args]) st)).
  { intros e cb args He Hf. unfold done.
    change (arg 0 (e :: cb :: args)) with e.
    change (tail (e :: cb :: args)) with (cb :: args).
    change (arg 0 (cb :: args)) with cb.
    rewrite Hf.
    replace (truthy match e with VUndefined => VNull | _ => e end) with false
      by (destruct e; simpl in *; congruence).
    erewrite bind_Normal; [|apply debug_log_spec].
    unfold call. rewrite Hf. unfold bind, effect_, ret. simpl.
    by rewrite emits_emits. }
  split; [|split].
  - intros cb args Hf ->. by apply Hcb.
  - intros Hnf. unfold done.
    change (arg 0 (err :: rest)) with err.
    change (tail (err :: rest)) with rest.
    rewrite Hnf.
    replace (truthy match err with VUndefined => VNull | _ => err end) with false
      by (destruct err; simpl in *; congruence).
    erewrite bind_Normal; [|apply debug_log_spec]. reflexivity.
  - intros cb a b Hf. by apply Hcb.
Qed.

Lemma done_success_continues_witness :
  done (demo_step 2) [VUndefined; VFun (FUser 1); VNum 7; VStr "b"] demo_state =
    (Normal VUndefined,
     emits [ELog "Step `%s` has done and start to run next step." [VStr "save"];
            ECall (VFun (FUser 1)) (ThisStep (demo_step 2)) [VNum 7; VStr "b"]]
           demo_state).
Proof.
  exact (proj2 (proj2 (done_success_continues (demo_step 2) VUndefined
                         [VFun (FUser 1); VNum 7; VStr "b"] demo_state eq_refl))
               (VFun (FUser 1)) (VNum 7) (VStr "b") eq_refl).
Defined.

(** ** jump *)

Lemma _run_spec l index args t st :
  tasks st !! l = Some t →
  0 ≤ index < Z.of_nat (length (_steps t)) →
  _run l index args st =
  (Normal VUndefined,
   emits [ETaskRun l index args]
         (set_tasks (λ ts, <[l := set_currIndex index t]> ts) st)).
Proof.
  intros Ht [H0 Hlen]. unfold _run.
  erewrite bind_Normal; [|by apply get_task_Some].
  replace ((0 <=? index) && (index <? Z.of_nat (length (_steps t)))) with true
    by (symmetry; apply andb_true_iff; split; [apply Z.leb_le|apply Z.ltb_lt]; lia).
  reflexivity.
Qed.

(** What [jump] does, once the Task and the target are known. *)
Lemma jump_spec this step args t st :
  step ≠ VUndefined →
  tasks st !! _task this = Some t →
  jump this (step :: args) st =
  match targetStep t (_currIndex t) step with
  | None => (Throw (VErr "The target step will jump to was not exists."), st)
  | Some target =>
    if _index target =? _currIndex t then (Normal VUndefined, st)
    else _run (_task this) (_index target) args (emits (jump_trace this target) st)
  end.
Proof.
  intros Hu Ht. unfold jump. change (arg 0 (step :: args)) with step.
  assert (Hg := get_task_Some _ _ _ Ht).
  destruct step; try congruence;
    (erewrite bind_Normal; [|exact Hg]);
    (destruct (targetStep t (_currIndex t) _) as [target|]; [|reflexivity]);
    (destruct (_index target =? _currIndex t); [reflexivity|]);
    (erewrite bind_Normal; [|apply debug_log_spec]); reflexivity.
Qed.

Lemma _getStep_index t (i : nat) s :
  _steps t !! i = Some s → _getStep t (VNum (Z.of_nat i)) = Some s.
Proof.
  intros H. unfold _getStep.
  replace (0 <=? Z.of_nat i) with true by (symmetry; apply Z.leb_le; lia).
  by rewrite Nat2Z.id.
Qed.

Lemma _getStep_out_of_range t n :
  n < 0 ∨ Z.of_nat (length (_steps t)) ≤ n → _getStep t (VNum n) = None.
Proof.
  intros H. unfold _getStep.
  destruct (0 <=? n) eqn:E; [|reflexivity].
  apply Z.leb_le in E. apply lookup_ge_None. lia.
Qed.

Lemma _getStep_unknown_name t name :
  (∀ s, s ∈ _steps t → _stepName s ≠ name) → _getStep t (VStr name) = None.
Proof.
  intros H. unfold _getStep.
  destruct (List.find _ _) as [s|] eqn:E; [|reflexivity].
  apply find_some in E as [Hin Heq].
  apply String.eqb_eq in Heq. exfalso.
  apply (H s); [by apply list_elem_of_In|done].
Qed.

Lemma set_tasks_emits f es st : set_tasks f (emits es st) = emits es (set_tasks f st).
Proof. reflexivity. Qed.

(** A jump to the step at position [i] of a Task whose steps are numbered,
    from another current index. *)
Lemma jump_to_position this step args t st (i : nat) target :
  step ≠ VUndefined →
  tasks st !! _task this = Some t →
  steps_indexed t →
  targetStep t (_currIndex t) step = Some target →
  _steps t !! i = Some target →
  Z.of_nat i ≠ _currIndex t →
  jump this (step :: args) st =
  (Normal VUndefined,
   emits (jump_trace this target ++ [ETaskRun (_task this) (Z.of_nat i) args])
         (set_tasks (λ ts, <[_task this := set_currIndex (Z.of_nat i) t]> ts) st)).
Proof.
  intros Hu Ht Hwf Htarget Hi Hne.
  rewrite (jump_spec this step args t st Hu Ht), Htarget.
  rewrite (Hwf i target Hi).
  destruct (Z.eqb_spec (Z.of_nat i) (_currIndex t)) as [|_]; [done|].
  rewrite (_run_spec _ _ _ t); [|done|].
  - by rewrite set_tasks_emits, emits_emits.
  - apply lookup_lt_Some in Hi. lia.
Qed.

(** C4. [jump(ref, ...args)] throws when [ref] is left out or undefined, and
    when it names no step: an unknown name, an absolute index past the end,
    or a value that is neither a string nor a number.  The state after the
    throw is the state before: the current index has not moved and nothing
    was called. *)
Theorem jump_unknown_throws (this : Step) (ref : value) (args : list value)
    (st : State) (t : Task) :
  tasks st !! _task this = Some t →
  names_no_step t ref →
  (∃ e, jump this (ref :: args) st = (Throw e, st))
  ∧ (∃ e, jump this [] st = (Throw e, st)).
Proof.
  intros Ht Hno. split; [|by eexists].
  assert (Hnone : ref ≠ VUndefined → targetStep t (_currIndex t) ref = None).
  { intros _. destruct ref; try reflexivity; simpl in *.
    - destruct (n <? 0) eqn:E.
      + apply _getStep_out_of_range. lia.
      + apply Z.ltb_ge in E. apply _getStep_out_of_range. lia.
    - by apply _getStep_unknown_name. }
  destruct ref; try (by eexists);
    (rewrite (jump_spec this _ args t st); [|done|done]);
    (rewrite Hnone; [by eexists|done]).
Qed.

Lemma jump_unknown_throws_witness :
  (∃ e, jump (demo_step 1) [VStr "nowhere"; VNum 4] demo_state = (Throw e, demo_state))
  ∧ (∃ e, jump (demo_step 1) [VNum 3] demo_state = (Throw e, demo_state))
  ∧ (∃ e, jump (demo_step 1) [VBool true] demo_state = (Throw e, demo_state)).
Proof.
  split; [|split].
  - apply (jump_unknown_throws (demo_step 1) (VStr "nowhere") [VNum 4]
             demo_state demo_task eq_refl).
    intros s Hs. vm_compute in Hs.
    repeat (apply elem_of_cons in Hs as [->|Hs]; [discriminate|]).
    by apply elem_of_nil in Hs.
  - apply (jump_unknown_throws (demo_step 1) (VNum 3) [] demo_state demo_task eq_refl).
    vm_compute. discriminate.
  - by apply (jump_unknown_throws (demo_step 1) (VBool true) [] demo_state demo_task eq_refl).
Defined.

(** C5. A negative number [n] is looked up as the absolute index
    [currIndex + n]; when that is a position of the (numbered) sequence,
    [jump(n, ...args)] runs the Task from there.  And whenever the step that
    [ref] resolves to has the current index, [jump(ref, ...)] returns and
    leaves the state as it was: no handler runs, no field changes. *)
Theorem jump_relative_and_self (this : Step) (args : list value) (st : State)
    (t : Task) :
  tasks st !! _task this = Some t →
  (∀ n, n < 0 →
     targetStep t (_currIndex t) (VNum n) = _getStep t (VNum (_currIndex t + n)))
  ∧ (∀ n target, n < 0 → steps_indexed t → 0 ≤ _currIndex t + n →
     _steps t !! Z.to_nat (_currIndex t + n) = Some target →
     jump this (VNum n :: args) st =
       (Normal VUndefined,
        emits (jump_trace this target ++
               [ETaskRun (_task this) (_currIndex t + n) args])
              (set_tasks (λ ts, <[_task this := set_currIndex (_currIndex t + n) t]> ts)
                         st)))
  ∧ (∀ ref target, ref ≠ VUndefined →
     targetStep t (_currIndex t) ref = Some target →
     _index target = _currIndex t →
     jump this (ref :: args) st = (Normal VUndefined, st)).
Proof.
  intros Ht.
  assert (Hrel : ∀ n, n < 0 →
     targetStep t (_currIndex t) (VNum n) = _getStep t (VNum (_currIndex t + n))).
  { intros n Hn. unfold targetStep.
    by replace (n <? 0) with true by (symmetry; apply Z.ltb_lt; lia). }
  split; [exact Hrel|split].
  - intros n target Hn Hwf H0 Hlook.
    pose proof (jump_to_position this (VNum n) args t st
                  (Z.to_nat (_currIndex t + n)) target) as Hj.
    rewrite Z2Nat.id in Hj by lia.
    apply Hj; try done; [|lia].
    rewrite (Hrel n Hn).
    rewrite <- (Z2Nat.id (_currIndex t + n)) by lia.
    by apply _getStep_index.
  - intros ref target Hu Htarget Hidx.
    rewrite (jump_spec this ref args t st Hu Ht), Htarget.
    by replace (_index target =? _currIndex t) with true
      by (symmetry; apply Z.eqb_eq; lia).
Qed.

Lemma jump_relative_and_self_witness :
  jump (demo_step 1) [VNum (-1); VStr "again"] demo_state =
    (Normal VUndefined,
     emits [ETaskRun 0%nat 0 [VStr "again"]]
           (set_tasks (λ ts, <[0%nat := set_currIndex 0 demo_task]> ts) demo_state))
  ∧ jump (demo_step 1) [VStr "process"; VStr "again"] demo_state =
      (Normal VUndefined, demo_state).
Proof.
  pose proof (jump_relative_and_self (demo_step 1) [VStr "again"] demo_state
                demo_task eq_refl) as (_ & Hrel & Hself).
  split.
  - apply (Hrel (-1) (demo_step 0)); [lia| |simpl; lia|reflexivity].
    intros i s Hs.
    destruct i as [|[|[|i]]]; simpl in Hs; by inversion Hs.
  - by apply (Hself (VStr "process") (demo_step 1)).
Defined.

(** ** next *)

(** C7. [next(...args)] is [jump(currIndex + 1, ...args)] when
    [currIndex + 1] is less than the number of steps, and then (the steps
    being numbered) the Task runs from [currIndex + 1] with [args];
    otherwise it is [end()], and the Task emits 'done' with null. *)
Theorem next_jumps_or_ends (this : Step) (args : list value) (st : State)
    (t : Task) :
  tasks st !! _task this = Some t →
  (_currIndex t + 1 < Z.of_nat (length (_steps t)) →
     next this args st = jump this (VNum (_currIndex t + 1) :: args) st)
  ∧ (steps_indexed t →
     0 ≤ _currIndex t + 1 < Z.of_nat (length (_steps t)) →
     ∃ target, _steps t !! Z.to_nat (_currIndex t + 1) = Some target ∧
       next this args st =
         (Normal VUndefined,
          emits (jump_trace this target ++
                 [ETaskRun (_task this) (_currIndex t + 1) args])
                (set_tasks (λ ts, <[_task this := set_currIndex (_currIndex t + 1) t]> ts)
                           st)))
  ∧ (Z.of_nat (length (_steps t)) ≤ _currIndex t + 1 →
     next this args st = end_ this [] st
     ∧ next this args st =
         (Normal VUndefined, emits (end_trace this t VNull) st)).
Proof.
  intros Ht.
  assert (Hn : next this args st =
    if _currIndex t + 1 <? Z.of_nat (length (_steps t))
    then jump this (VNum (_currIndex t + 1) :: args) st else end_ this [] st).
  { unfold next. erewrite bind_Normal; [|by apply get_task_Some].
    by destruct (_ <? _). }
  split; [|split].
  - intros Hlt. rewrite Hn.
    by replace (_ <? _) with true by (symmetry; apply Z.ltb_lt; lia).
  - intros Hwf [H0 Hlt].
    destruct (lookup_lt_is_Some_2 (_steps t) (Z.to_nat (_currIndex t + 1)))
      as [target Htarget]; [lia|].
    exists target. split; [done|].
    rewrite Hn.
    replace (_ <? _) with true by (symmetry; apply Z.ltb_lt; lia).
    pose proof (jump_to_position this (VNum (_currIndex t + 1)) args t st
                  (Z.to_nat (_currIndex t + 1)) target) as Hj.
    rewrite Z2Nat.id in Hj by lia.
    apply Hj; try done; [|lia].
    unfold targetStep.
    replace (_ <? 0) with false by (symmetry; apply Z.ltb_ge; lia).
    rewrite <- (Z2Nat.id (_currIndex t + 1)) at 1 by lia.
    by apply _getStep_index.
  - intros Hge. rewrite Hn.
    replace (_ <? _) with false by (symmetry; apply Z.ltb_ge; lia).
    split; [done|].
    by rewrite (end_spec this [] t st Ht).
Qed.

Lemma next_jumps_or_ends_witness :
  next (demo_step 1) [VNum 5] demo_state =
    (Normal VUndefined,
     emits [ETaskRun 0%nat 2 [VNum 5]]
           (set_tasks (λ ts, <[0%nat := set_currIndex 2 demo_task]> ts) demo_state))
  ∧ next (demo_step 1) [VNum 5] last_state =
      (Normal VUndefined, emits [ETaskEmit 0%nat "done" [VNull]] last_state).
Proof.
  split.
  - destruct (proj1 (proj2 (next_jumps_or_ends (demo_step 1) [VNum 5] demo_state
                              demo_task eq_refl)))
      as (target & Htarget & Hnext).
    + intros i s Hs. destruct i as [|[|[|i]]]; simpl in Hs; by inversion Hs.
    + simpl. lia.
    + simpl in Htarget. inversion Htarget. subst target. exact Hnext.
  - apply (proj2 (proj2 (next_jumps_or_ends (demo_step 1) [VNum 5] last_state
                           (set_currIndex 2 demo_task) eq_refl))).
    simpl. lia.
Defined.

(** ** vars *)

(** C9. On a step of Task [t]: [vars(k)] returns what the Task's variables
    hold under [k]; [vars(k, v)] stores [v] under [k] and returns [v]; any
    other number of arguments gives null and changes nothing.  After
    [vars(k, v)], [vars(k)] on any step of the same Task returns [v], and
    [vars(k)] on a step of another Task returns what it returned before. *)
Theorem vars_get_set (key_of : value → string) (this other : Step) (k v : value)
    (st : State) (t : Task) :
  tasks st !! _task this = Some t →
  let st' := set_tasks
    (λ ts, <[_task this := set_variables (λ vs, <[key_of k := v]> vs) t]> ts) st in
  vars key_of this [k] st =
    (Normal (default VUndefined (_variables t !! key_of k)), st)
  ∧ vars key_of this [k; v] st = (Normal v, st')
  ∧ (∀ args, length args ≠ 1%nat → length args ≠ 2%nat →
       vars key_of this args st = (Normal VNull, st))
  ∧ (_task other = _task this → vars key_of other [k] st' = (Normal v, st'))
  ∧ (_task other ≠ _task this →
       (vars key_of other [k] st').1 = (vars key_of other [k] st).1).
Proof.
  intros Ht st'. repeat split.
  - unfold vars. simpl. by erewrite bind_Normal; [|by apply get_task_Some].
  - unfold vars. simpl. by erewrite bind_Normal; [|by apply get_task_Some].
  - intros args H1 H2. unfold vars.
    destruct (Nat.eqb_spec (length args) 1); [done|].
    by destruct (Nat.eqb_spec (length args) 2).
  - intros Hsame. unfold vars. simpl.
    erewrite bind_Normal; last first.
    { apply get_task_Some. subst st'. simpl. rewrite Hsame. apply lookup_insert_eq. }
    unfold ret. simpl. by rewrite lookup_insert_eq.
  - intros Hother. unfold vars, bind, get_task. simpl.
    rewrite lookup_insert_ne by done.
    by destruct (tasks st !! _task other).
Qed.

Lemma vars_get_set_witness :
  let st' := (vars demo_key (demo_step 0) [VStr "k"; VNum 1] two_tasks).2 in
  vars demo_key (demo_step 2) [VStr "k"] st' = (Normal (VNum 1), st')
  ∧ (vars demo_key other_step [VStr "k"] st').1 = Normal VUndefined.
Proof.
  pose proof (vars_get_set demo_key (demo_step 0) (demo_step 2) (VStr "k") (VNum 1)
                two_tasks demo_task eq_refl) as (_ & Hset & _ & Hsame & _).
  pose proof (vars_get_set demo_key (demo_step 0) other_step (VStr "k") (VNum 1)
                two_tasks demo_task eq_refl) as (_ & _ & _ & _ & Hother).
  intros st'. subst st'. rewrite Hset. cbn [snd]. split.
  - by apply Hsame.
  - rewrite Hother; [reflexivity|discriminate].
Defined.

(** ** fulfill *)

Lemma set_results_nil t : set_results (λ rs, rs ++ []) t = t.
Proof. destruct t. unfold set_results. simpl. by rewrite app_nil_r. Qed.

Lemma _result_spec l args t st :
  tasks st !! l = Some t →
  _result l args st =
  (Normal VUndefined,
   mkState (<[l := set_results (λ rs, rs ++ [arg 0 args]) t]> (tasks st))
           (closures st) (out st ++ [ETaskResult l args])).
Proof.
  intros Ht. unfold _result.
  erewrite bind_Normal; [|by apply get_task_Some]. reflexivity.
Qed.

Lemma forEach_result l whole xs : ∀ i t st,
  tasks st !! l = Some t →
  forEach_from i (Some <$> xs)
    (λ x j, _result l [x; VNum (Z.of_nat j); VArr whole]) st =
  (Normal tt,
   mkState (<[l := set_results (λ rs, rs ++ xs) t]> (tasks st))
           (closures st) (out st ++ result_calls l whole i xs)).
Proof.
  induction xs as [|x xs IH]; intros i t st Ht.
  - simpl. unfold ret. f_equal. destruct st as [ts cs o]. simpl in *.
    rewrite set_results_nil, app_nil_r. by rewrite insert_id.
  - cbn [fmap list_fmap forEach_from].
    erewrite bind_Normal; [|by apply _result_spec].
    erewrite IH; [|simpl; apply lookup_insert_eq].
    simpl. rewrite insert_insert_eq. f_equal. f_equal.
    + f_equal. unfold set_results. simpl. f_equal.
      by rewrite <- app_assoc.
    + unfold result_calls. rewrite imap_cons, <- app_assoc. simpl.
      rewrite Nat.add_0_r. do 2 f_equal.
      apply imap_ext. intros j y _. simpl. do 4 f_equal. lia.
Qed.

(** C8. [fulfill(v1, ..., vn)] calls the Task's accumulator once for each
    value, in the order of the arguments, bound to the Task, with the value
    as the argument (forEach adds the index and the array after it); the
    values end up, in that order, behind the results the Task had.  Nothing
    else is called and no other field of the Task changes: the current
    index stays, the Task neither runs a step nor emits 'done'. *)
Theorem fulfill_accumulates (this : Step) (vs : list value) (st : State)
    (t : Task) :
  tasks st !! _task this = Some t →
  fulfill this vs st =
  (Normal VUndefined,
   mkState (<[_task this := set_results (λ rs, rs ++ vs) t]> (tasks st))
           (closures st)
           (out st ++ imap (λ i v, ETaskResult (_task this)
                                     [v; VNum (Z.of_nat i); VArr (Some <$> vs)]) vs)).
Proof.
  intros Ht. unfold fulfill, forEach.
  erewrite bind_Normal; [|by apply get_task_Some].
  erewrite bind_Normal; [|by apply forEach_result].
  reflexivity.
Qed.

Lemma fulfill_accumulates_witness :
  fulfill (demo_step 0) [VNum 1; VNum 2] demo_state =
  (Normal VUndefined,
   mkState {[ 0%nat := set_results (λ _, [VNum 1; VNum 2]) demo_task ]} []
     [ETaskResult 0%nat [VNum 1; VNum 0; VArr [Some (VNum 1); Some (VNum 2)]];
      ETaskResult 0%nat [VNum 2; VNum 1; VArr [Some (VNum 1); Some (VNum 2)]]]).
Proof.
  rewrite (fulfill_accumulates (demo_step 0) [VNum 1; VNum 2] demo_state demo_task
             eq_refl).
  simpl. by rewrite insert_singleton_eq.
Defined.

(** ** The closures of parallel are out of the other methods' reach *)

Create HintDb frame.

Lemma framed_ret {A} (a : A) : framed (ret a).
Proof. by intros st cs. Qed.

Lemma framed_throw {A} e : framed (@throw A e).
Proof. by intros st cs. Qed.

Lemma framed_bind {A B} (m : M A) (k : A → M B) :
  framed m → (∀ a, framed (k a)) → framed (bind m k).
Proof.
  intros Hm Hk st cs. unfold bind. rewrite Hm.
  destruct (m st) as [[a|e] st']; simpl; [apply Hk|done].
Qed.

Lemma framed_effect e : framed (effect_ e).
Proof. by intros st cs. Qed.

Lemma framed_get_task l : framed (get_task l).
Proof. intros st cs. unfold get_task. simpl. by destruct (tasks st !! l). Qed.

Lemma framed_put_task l t : framed (put_task l t).
Proof. by intros st cs. Qed.

Lemma framed_if {A} (b : bool) (m1 m2 : M A) :
  framed m1 → framed m2 → framed (if b then m1 else m2).
Proof. by destruct b. Qed.

#[local] Hint Resolve framed_ret framed_throw framed_effect framed_get_task
  framed_put_task : frame.
#[local] Hint Extern 2 (framed (bind _ _)) => apply framed_bind; [|intros] : frame.
#[local] Hint Extern 2 (framed (if _ then _ else _)) => apply framed_if : frame.
#[local] Hint Extern 3 (framed (match ?x with _ => _ end)) => destruct x : frame.

Ltac frame := auto 20 with frame.

Lemma framed_debug_log this fmt args : framed (debug_log this fmt args).
Proof. unfold debug_log. frame. Qed.

Lemma framed_call f this args : framed (call f this args).
Proof. unfold call. frame. Qed.

Lemma framed_emit l ev args : framed (emit l ev args).
Proof. unfold emit. frame. Qed.

Lemma framed__run l i args : framed (_run l i args).
Proof. unfold _run. frame. Qed.

#[local] Hint Resolve framed_debug_log framed_call framed_emit framed__run : frame.

Lemma framed_end this args : framed (end_ this args).
Proof. unfold end_. frame. Qed.

Lemma framed_jump this args : framed (jump this args).
Proof. unfold jump. frame. Qed.

#[local] Hint Resolve framed_end framed_jump : frame.

Lemma framed_next this args : framed (next this args).
Proof. unfold next. frame. Qed.

#[local] Hint Resolve framed_next : frame.

Lemma framed_done this args : framed (done this args).
Proof. unfold done. frame. Qed.

#[local] Hint Resolve framed_done : frame.

Lemma framed_invoke cb this args : framed (invoke cb this args).
Proof. unfold invoke. frame. Qed.

Lemma set_closures_id st : set_closures (λ _, closures st) st = st.
Proof. by destruct st. Qed.

Lemma framed_closures {A} (m : M A) st :
  framed m → closures (m st).2 = closures st.
Proof.
  intros Hm. pose proof (Hm st (closures st)) as H.
  rewrite set_closures_id in H.
  by rewrite H at 1.
Qed.

(** ** Arrays with holes *)

Lemma array_set_length a n r :
  length (array_set a n r) = Nat.max (length a) (S n).
Proof.
  unfold array_set. destruct (Nat.ltb_spec n (length a)).
  - rewrite length_insert. lia.
  - rewrite !length_app, length_replicate. simpl. lia.
Qed.

Lemma array_set_lookup_eq a n r : array_set a n r !! n = Some (Some r).
Proof.
  unfold array_set. destruct (Nat.ltb_spec n (length a)).
  - by apply list_lookup_insert_eq.
  - rewrite lookup_app_r by lia.
    rewrite lookup_app_r by (rewrite length_replicate; lia).
    rewrite length_replicate.
    by replace (n - length a - (n - length a))%nat with 0%nat by lia.
Qed.

Lemma array_set_lookup_ne a n r m x :
  m ≠ n → a !! m = Some x → array_set a n r !! m = Some x.
Proof.
  intros Hne Hm. unfold array_set. destruct (Nat.ltb_spec n (length a)).
  - by rewrite list_lookup_insert_ne.
  - by apply lookup_app_l_Some.
Qed.

(** ** Schedules *)

Lemma fill_cons_success a c sched :
  failed c = false → fill a (c :: sched) = fill (array_set a c.1 (arg 1 c.2)) sched.
Proof. intros H. unfold fill, successes. simpl. by rewrite H. Qed.

Lemma fill_cons_failed a c sched :
  failed c = true → fill a (c :: sched) = fill a sched.
Proof. intros H. unfold fill, successes. simpl. by rewrite H. Qed.

Lemma fill_length a sched (n : nat) :
  (length a ≤ n)%nat → Forall (λ c, (c.1 < n)%nat) sched →
  (length (fill a sched) ≤ n)%nat.
Proof.
  intros Ha Hs. revert a Ha.
  induction Hs as [|c sched Hc _ IH]; intros a Ha; [done|].
  destruct (failed c) eqn:E.
  - rewrite fill_cons_failed by done. by apply IH.
  - rewrite fill_cons_success by done. apply IH.
    rewrite array_set_length. lia.
Qed.

(** A value that was written stays, when no other completion writes to its
    index afterwards. *)
Lemma fill_keeps a sched m x :
  a !! m = Some x → m ∉ (successes sched).*1 → fill a sched !! m = Some x.
Proof.
  revert a. induction sched as [|c sched IH]; intros a Ha Hm; [done|].
  destruct (failed c) eqn:E.
  - rewrite fill_cons_failed by done. apply IH; [done|].
    unfold successes in *. simpl in Hm. by rewrite E in Hm.
  - rewrite fill_cons_success by done.
    unfold successes in *. simpl in Hm. rewrite E in Hm. simpl in Hm.
    apply not_elem_of_cons in Hm as [Hne Hm].
    apply IH; [|done]. by apply array_set_lookup_ne.
Qed.

(** Branch [i]'s result is at index [i], wherever its completion stands in
    the schedule. *)
Lemma fill_aligned a sched i args :
  NoDup sched.*1 → (i, args) ∈ sched → failed (i, args) = false →
  fill a sched !! i = Some (Some (arg 1 args)).
Proof.
  revert a. induction sched as [|c sched IH]; intros a Hnd Hin Hok.
  { by apply elem_of_nil in Hin. }
  simpl in Hnd. apply NoDup_cons in Hnd as [Hfresh Hnd].
  apply elem_of_cons in Hin as [<-|Hin].
  - rewrite fill_cons_success by done. simpl.
    apply fill_keeps; [apply array_set_lookup_eq|].
    intros Hi. apply Hfresh. simpl.
    unfold successes in Hi.
    apply list_elem_of_fmap in Hi as (c' & -> & Hc').
    apply list_elem_of_In, filter_In in Hc' as [Hc' _].
    apply list_elem_of_fmap. exists c'. split; [done|by apply list_elem_of_In].
  - destruct (failed c) eqn:E.
    + rewrite fill_cons_failed by done. by apply IH.
    + rewrite fill_cons_success by done. by apply IH.
Qed.

(** ** The completion callback of parallel *)

Lemma get_env_Some e env st :
  closures st !! e = Some env → get_env e st = (Normal env, st).
Proof. intros H. unfold get_env. by rewrite H. Qed.

Lemma parallel_done_failed e n args env st :
  closures st !! e = Some env → truthy (arg 0 args) = true →
  (parallel_done e n args st).2 =
  (invoke (p_callback env) (p_root env) [arg 0 args] st).2.
Proof.
  intros He Herr. unfold parallel_done.
  erewrite bind_Normal; [|by apply get_env_Some].
  rewrite Herr. unfold bind.
  by destruct (invoke _ _ _ st) as [[?|?] ?].
Qed.

Lemma parallel_done_pending e n args env st :
  closures st !! e = Some env → truthy (arg 0 args) = false →
  p_completed env + 1 < Z.of_nat (p_length env) →
  (parallel_done e n args st).2 =
  set_closures (λ _, <[e := env_after env [(n, args)]]> (closures st)) st.
Proof.
  intros He Herr Hlt. unfold parallel_done.
  erewrite bind_Normal; [|by apply get_env_Some].
  rewrite Herr. unfold bind, put_env.
  replace (_ >=? _) with false by (symmetry; rewrite Z.geb_leb; apply Z.leb_gt; lia).
  unfold env_after. rewrite fill_cons_success by done.
  unfold successes, failed. simpl. by rewrite Herr.
Qed.

Lemma parallel_done_last e n args env st :
  closures st !! e = Some env → truthy (arg 0 args) = false →
  Z.of_nat (p_length env) ≤ p_completed env + 1 →
  (parallel_done e n args st).2 =
  (invoke (p_callback env) (p_root env)
          [VNull; VArr (array_set (p_result env) n (arg 1 args))]
          (set_closures (λ _, <[e := env_after env [(n, args)]]> (closures st)) st)).2.
Proof.
  intros He Herr Hge. unfold parallel_done.
  erewrite bind_Normal; [|by apply get_env_Some].
  rewrite Herr. unfold bind at 1, put_env.
  replace (_ >=? _) with true by (symmetry; rewrite Z.geb_leb; apply Z.leb_le; lia).
  unfold env_after. rewrite fill_cons_success by done.
  unfold successes, failed. simpl. rewrite Herr. simpl.
  unfold bind, set_closures. simpl.
  by destruct (invoke _ _ _ _) as [[?|?] ?].
Qed.

Lemma invokes_framed cb this argss : ∀ st cs,
  invokes cb this argss (set_closures (λ _, cs) st) =
  set_closures (λ _, cs) (invokes cb this argss st).
Proof.
  induction argss as [|a argss IH]; intros st cs; [done|].
  simpl. rewrite (framed_invoke cb this a st cs). simpl. apply IH.
Qed.

Lemma invokes_closures cb this argss : ∀ st,
  closures (invokes cb this argss st) = closures st.
Proof.
  induction argss as [|a argss IH]; intros st; [done|].
  simpl. rewrite IH. apply framed_closures, framed_invoke.
Qed.

Lemma completions_app e s1 s2 : ∀ st,
  completions e (s1 ++ s2) st = completions e s2 (completions e s1 st).
Proof.
  induction s1 as [|[n a] s1 IH]; intros st; [done|]. simpl. apply IH.
Qed.

Lemma env_after_nil env : env_after env [] = env.
Proof. destruct env. unfold env_after. simpl. by rewrite Z.add_0_r. Qed.

Lemma env_after_cons_failed env c sched :
  failed c = true → env_after env (c :: sched) = env_after env sched.
Proof.
  intros H. unfold env_after. rewrite fill_cons_failed by done.
  unfold successes. simpl. by rewrite H.
Qed.

Lemma env_after_cons_success env c sched :
  failed c = false →
  env_after env (c :: sched) = env_after (env_after env [c]) sched.
Proof.
  intros H. unfold env_after. rewrite !fill_cons_success by done.
  unfold successes. simpl. rewrite H. simpl. f_equal. lia.
Qed.

(** As long as the successful completions stay below [arr.length], the
    callback is called for the errors and for nothing else. *)
Lemma completions_below e sched : ∀ env st,
  closures st !! e = Some env →
  p_completed env + Z.of_nat (length (successes sched)) < Z.of_nat (p_length env) →
  completions e sched st =
  set_closures (λ _, <[e := env_after env sched]> (closures st))
    (invokes (p_callback env) (p_root env) ((λ err, [err]) <$> errors sched) st).
Proof.
  induction sched as [|[n args] sched IH]; intros env st He Hlt.
  - simpl. rewrite env_after_nil, list_insert_id by done.
    by rewrite set_closures_id.
  - simpl. destruct (failed (n, args)) eqn:E.
    + rewrite (parallel_done_failed e n args env st He E).
      assert (Hc : closures (invoke (p_callback env) (p_root env) [arg 0 args] st).2
                   = closures st) by apply framed_closures, framed_invoke.
      rewrite (IH env); [|by rewrite Hc|].
      * rewrite Hc, env_after_cons_failed by done.
        unfold errors. simpl. by rewrite E.
      * unfold successes in *. simpl in Hlt. by rewrite E in Hlt.
    + assert (Hlen : Z.of_nat (length (successes ((n, args) :: sched))) =
                     1 + Z.of_nat (length (successes sched))).
      { unfold successes. simpl. rewrite E. simpl. lia. }
      rewrite (parallel_done_pending e n args env st He E) by lia.
      assert (e < length (closures st))%nat by by eapply lookup_lt_Some.
      rewrite (IH (env_after env [(n, args)])).
      * simpl. rewrite invokes_framed. unfold set_closures. simpl.
        rewrite list_insert_insert_eq.
        rewrite <- env_after_cons_success by done.
        unfold errors. simpl. by rewrite E.
      * simpl. by apply list_lookup_insert_eq.
      * unfold env_after at 1 2. simpl. unfold successes at 1. simpl.
        rewrite E. simpl. fold (successes sched). lia.
Qed.

(** ** parallel: what the call itself does *)

Lemma parallel_callback_function arr rest f :
  parallel_callback arr rest = CbGiven f → isFunction f = true.
Proof.
  unfold parallel_callback.
  destruct (isFunction (array_get arr 0));
    [destruct (isFunction (arg 0 rest)) eqn:E|destruct (isFunction (arg 1 rest)) eqn:E];
    intros H; inversion H; by subst.
Qed.

Lemma framed_forEach_from f a :
  (∀ x j, framed (f x j)) → ∀ i, framed (forEach_from i a f).
Proof.
  intros Hf. induction a as [|[x|] a IH]; intros i; simpl; frame.
Qed.

(** The call allocates one closure record: nothing completed, an empty
    [result], the length of [arr] and the callback. *)
Lemma parallel_allocates this arr rest st :
  closures (parallel this arr rest st).2 =
  closures st ++ [mkParEnv this (length arr) (parallel_callback arr rest) 0 []].
Proof.
  unfold parallel, parallel_callback.
  destruct (isFunction (array_get arr 0)).
  - unfold bind at 1, new_env.
    rewrite framed_closures; [done|].
    apply framed_bind; [|frame]. apply framed_forEach_from. frame.
  - unfold bind at 1, new_env.
    rewrite framed_closures; [done|].
    apply framed_bind; [|frame]. apply framed_forEach_from. frame.
Qed.

Lemma forEach_from_calls (f : value → nat → M value) (g : nat → value → effect) xs :
  (∀ x j st, f x j st = (Normal VUndefined, emits [g j x] st)) →
  ∀ i st, forEach_from i (Some <$> xs) f st =
          (Normal tt, emits (imap (λ j x, g (i + j)%nat x) xs) st).
Proof.
  intros Hf. induction xs as [|x xs IH]; intros i st.
  - simpl. by rewrite emits_nil.
  - cbn [fmap list_fmap forEach_from].
    erewrite bind_Normal; [|apply Hf]. rewrite IH, emits_emits. simpl.
    rewrite Nat.add_0_r. do 3 f_equal.
    apply imap_ext. intros j y _. simpl. f_equal. lia.
Qed.



(** C10. [parallel([], ...)] calls nothing: no branch is started, so no
    completion callback exists to be called, and the aggregation callback
    is called neither with an error nor with results.  The call returns
    with the trace and the Tasks as they were; only the closure record of
    the call, which nothing refers to, is new.  A schedule over the
    branches that were started is empty, and leaves the state there. *)
Theorem parallel_empty_stalls (this : Step) (rest : list value) (st : State) :
  parallel this [] rest st =
    (Normal VUndefined,
     set_closures (λ cs, cs ++ [mkParEnv this 0 (parallel_callback [] rest) 0 []]) st)
  ∧ out (parallel this [] rest st).2 = out st
  ∧ tasks (parallel this [] rest st).2 = tasks st
  ∧ ∀ sched, Forall (λ c, (c.1 < length (@nil value))%nat) sched →
      completions (length (closures st)) sched (parallel this [] rest st).2 =
      (parallel this [] rest st).2.
Proof.
  repeat split.
  intros sched Hsched. destruct Hsched as [|c sched Hc _]; [done|].
  simpl in Hc. lia.
Qed.

(** ** parallel: the aggregation *)

Lemma successes_all sched :
  Forall (λ c, failed c = false) sched → successes sched = sched.
Proof.
  induction 1 as [|c sched Hc _ IH]; [done|].
  unfold successes in *. simpl. by rewrite Hc, IH.
Qed.

Lemma errors_none sched :
  Forall (λ c, failed c = false) sched → errors sched = [].
Proof.
  induction 1 as [|c sched Hc _ IH]; [done|].
  unfold errors in *. simpl. by rewrite Hc.
Qed.

Lemma errors_nil_all sched :
  errors sched = [] → Forall (λ c, failed c = false) sched.
Proof.
  induction sched as [|c sched IH]; [done|].
  unfold errors in *. simpl. destruct (failed c) eqn:E; [done|].
  intros H. constructor; [done|by apply IH].
Qed.

Lemma fill_snoc a sched c :
  failed c = false → fill a (sched ++ [c]) = array_set (fill a sched) c.1 (arg 1 c.2).
Proof.
  intros H. unfold fill, successes. rewrite List.filter_app. simpl.
  rewrite H. simpl. by rewrite foldl_app.
Qed.

Lemma invokes_given_out f this argss : isFunction f = true → ∀ st,
  out (invokes (CbGiven f) this argss st) =
  out st ++ ((λ a, ECall f (ThisStep this) a) <$> argss).
Proof.
  intros Hf. induction argss as [|a argss IH]; intros st.
  - simpl. by rewrite app_nil_r.
  - simpl. rewrite IH. unfold call. rewrite Hf.
    unfold bind, effect_, ret. simpl. by rewrite <- app_assoc.
Qed.

Section Aggregation.
Variables (this : Step) (items : list value) (rest : list value) (st : State).

Let n := length items.
Let e := length (closures st).
Let cb := parallel_callback (Some <$> items) rest.
Let st1 := (parallel this (Some <$> items) rest st).2.
Let env0 := mkParEnv this n cb 0 [].

Lemma parallel_env : closures st1 !! e = Some env0.
Proof.
  subst st1 e env0 n cb. rewrite parallel_allocates, length_fmap.
  by rewrite lookup_app_r, Nat.sub_diag.
Qed.

(** While fewer than [n] completions have come in, all of them
    successful, nothing is called. *)
Lemma completions_waiting sched :
  Forall (λ c, failed c = false) sched → (length sched < n)%nat →
  completions e sched st1 =
  set_closures (λ _, <[e := env_after env0 sched]> (closures st1)) st1.
Proof.
  intros Hok Hlen.
  rewrite (completions_below e sched env0 st1 parallel_env).
  - by rewrite errors_none.
  - rewrite successes_all by done. simpl. lia.
Qed.

(** The last of [n] successful completions calls the callback with
    (null, result). *)
Lemma completions_all_succeed sched :
  Forall (λ c, failed c = false) sched → length sched = n → sched ≠ [] →
  completions e sched st1 =
  (invoke cb this [VNull; VArr (fill [] sched)]
     (set_closures
        (λ cs, <[e := mkParEnv this n cb (Z.of_nat n) (fill [] sched)]> cs) st1)).2.
Proof.
  intros Hok Hlen Hne.
  destruct sched as [|c0 sched0 _] using rev_ind; [done|clear Hne].
  rewrite length_app in Hlen. simpl in Hlen.
  apply Forall_app in Hok as [Hinit Hlast].
  apply Forall_inv in Hlast.
  rewrite completions_app, completions_waiting by (done || lia).
  destruct c0 as [i args]. cbn [completions].
  set (S1 := set_closures _ st1).
  assert (He : closures S1 !! e = Some (env_after env0 sched0)).
  { apply list_lookup_insert_eq. eapply lookup_lt_Some, parallel_env. }
  rewrite (parallel_done_last e i args _ S1 He Hlast); last first.
  { simpl. rewrite successes_all by done. lia. }
  simpl. rewrite fill_snoc by done. simpl.
  do 2 f_equal. unfold set_closures. simpl.
  rewrite list_insert_insert_eq. do 2 f_equal.
  unfold env_after. simpl. rewrite fill_cons_success by done.
  rewrite successes_all by done. unfold successes. simpl.
  rewrite Hlast. simpl. f_equal. lia.
Qed.

(** With at least one error among the [n] completions, the callback is
    called for each error and never with results. *)
Lemma completions_with_errors sched :
  length sched = n → errors sched ≠ [] →
  completions e sched st1 =
  set_closures (λ _, <[e := env_after env0 sched]> (closures st1))
    (invokes cb this ((λ err, [err]) <$> errors sched) st1).
Proof.
  intros Hlen Herr.
  apply (completions_below e sched env0 st1 parallel_env).
  simpl. pose proof (List.filter_length failed sched) as Hf.
  fold (successes sched) in Hf.
  assert (length (List.filter failed sched) ≠ 0)%nat.
  { intros H0. apply Herr. unfold errors.
    by apply nil_length_inv in H0 as ->. }
  lia.
Qed.
End Aggregation.

Lemma invokes_done_errors this t errs : ∀ st,
  tasks st !! _task this = Some t →
  Forall (λ err, truthy err = true) errs →
  invokes CbDone this ((λ err, [err]) <$> errs) st =
  emits (errs ≫= end_trace this t) st.
Proof.
  induction errs as [|err errs IH]; intros st Ht Hall.
  - simpl. by rewrite emits_nil.
  - apply Forall_cons_1 in Hall as [Herr Hall].
    cbn [fmap list_fmap invokes invoke].
    rewrite (done_truthy this err [] st Herr), (end_spec this [err] t st Ht).
    change (arg 0 [err]) with err. rewrite Herr.
    cbn [snd]. rewrite IH by done. by rewrite emits_emits.
Qed.

Lemma errors_truthy sched : Forall (λ err, truthy err = true) (errors sched).
Proof.
  unfold errors. apply Forall_fmap, Forall_forall.
  intros c Hc. by apply list_elem_of_In, filter_In in Hc as [_ Hc].
Qed.

Lemma each_once_length n sched : each_once n sched → length sched = n.
Proof.
  intros H. apply Permutation_length in H.
  by rewrite length_fmap, length_seq in H.
Qed.

Lemma each_once_NoDup n sched : each_once n sched → NoDup sched.*1.
Proof. intros H. rewrite H. apply NoDup_seq. Qed.

Lemma each_once_bound n sched :
  each_once n sched → Forall (λ c, (c.1 < n)%nat) sched.
Proof.
  intros H. apply Forall_forall. intros c Hc.
  assert (c.1 ∈ seq 0 n) as Hin.
  { rewrite <- H. apply list_elem_of_fmap. by exists c. }
  apply elem_of_seq in Hin. lia.
Qed.

(** When every completion callback is called once and successfully, in
    whatever order, the aggregation callback is called with (null, results)
    by the last call and not before; [results] has the length of [items],
    and the result given to the callback bound to [i] is at index [i]. *)
Lemma completions_results_aligned (this : Step) (items rest : list value)
    (st : State) (sched : list (nat * list value)) :
  let n := length items in
  let e := length (closures st) in
  let cb := parallel_callback (Some <$> items) rest in
  let st1 := (parallel this (Some <$> items) rest st).2 in
  let results := fill [] sched in
  items ≠ [] →
  each_once n sched →
  Forall (λ c, failed c = false) sched →
  completions e sched st1 =
    (invoke cb this [VNull; VArr results]
       (set_closures (λ cs, <[e := mkParEnv this n cb (Z.of_nat n) results]> cs)
                     st1)).2
  ∧ length results = n
  ∧ (∀ i args, (i, args) ∈ sched → results !! i = Some (Some (arg 1 args)))
  ∧ (∀ k, (k < n)%nat →
       tasks (completions e (take k sched) st1) = tasks st1
       ∧ out (completions e (take k sched) st1) = out st1)
  ∧ (∀ f, cb = CbGiven f →
       out (completions e sched st1) =
       out st1 ++ [ECall f (ThisStep this) [VNull; VArr results]]).
Proof.
  intros n e cb st1 results Hne Honce Hok.
  pose proof (each_once_length _ _ Honce) as Hlen.
  assert (Hsched : sched ≠ []).
  { intros ->. destruct items; [done|]. simpl in Hlen. subst n. discriminate. }
  pose proof (completions_all_succeed this items rest st sched Hok Hlen Hsched)
    as Hall.
  assert (Haligned : ∀ i args, (i, args) ∈ sched →
            results !! i = Some (Some (arg 1 args))).
  { intros i args Hin. apply fill_aligned; [by eapply each_once_NoDup|done|].
    rewrite Forall_forall in Hok. by apply Hok. }
  split; [exact Hall|]. split; [|split; [exact Haligned|split]].
  - apply Nat.le_antisymm.
    + apply fill_length; [simpl; lia|by apply each_once_bound].
    + destruct n as [|m]; [lia|].
      assert (m ∈ sched.*1) as Hm.
      { unfold each_once in Honce. rewrite Honce. apply elem_of_seq. lia. }
      apply list_elem_of_fmap in Hm as ([i args] & -> & Hin).
      apply Haligned, lookup_lt_Some in Hin. simpl. lia.
  - intros k Hk.
    rewrite (completions_waiting this items rest st).
    + done.
    + by apply Forall_take.
    + rewrite length_take. fold n. lia.
  - intros f Hf.
    change (completions e sched st1) with
      (completions (length (closures st)) sched
                   (parallel this (Some <$> items) rest st).2).
    rewrite Hall. fold cb. rewrite Hf. simpl. unfold call.
    rewrite (parallel_callback_function _ _ _ Hf). reflexivity.
Qed.

(** C1 fails as stated: with two branches that both report an error, the
    callback is called twice. *)
Lemma parallel_two_errors_two_calls :
  ¬ called_exactly_once (demo_step 1) [fnA; fnB] [user_done] demo_state
      [(0%nat, [VErr "errA"]); (1%nat, [VErr "errB"])].
Proof. unfold called_exactly_once. vm_compute. discriminate. Qed.

(** C1, amended.  When every branch completes once: if none reports an
    error, the callback is called once, with (null, results), by the last
    completion; if some do, it is called once for each error, with that
    error, in the order the errors come in, and never with results, so
    that the first call carries the first error and a success that comes
    after an error calls nothing.  With a function as callback the trace
    says so call by call; with the default, [this.done], every error ends
    the Task again. *)
Theorem parallel_callback_per_error (this : Step) (items rest : list value)
    (st : State) (sched : list (nat * list value)) :
  let n := length items in
  let e := length (closures st) in
  let cb := parallel_callback (Some <$> items) rest in
  let st1 := (parallel this (Some <$> items) rest st).2 in
  items ≠ [] →
  each_once n sched →
  (errors sched = [] →
     completions e sched st1 =
     (invoke cb this [VNull; VArr (fill [] sched)]
        (set_closures
           (λ cs, <[e := mkParEnv this n cb (Z.of_nat n) (fill [] sched)]> cs) st1)).2)
  ∧ (errors sched ≠ [] →
     completions e sched st1 =
     set_closures
       (λ _, <[e := env_after (mkParEnv this n cb 0 []) sched]> (closures st1))
       (invokes cb this ((λ err, [err]) <$> errors sched) st1))
  ∧ (∀ f, cb = CbGiven f →
     out (completions e sched st1) =
     out st1 ++
     ((λ a, ECall f (ThisStep this) a) <$>
        match errors sched with
        | [] => [[VNull; VArr (fill [] sched)]]
        | errs => (λ err, [err]) <$> errs
        end))
  ∧ (∀ t, cb = CbDone → errors sched ≠ [] → tasks st1 !! _task this = Some t →
     out (completions e sched st1) =
     out st1 ++ (errors sched ≫= end_trace this t)).
Proof.
  intros n e cb st1 Hne Honce.
  pose proof (each_once_length _ _ Honce) as Hlen.
  assert (Hsched : sched ≠ []).
  { intros ->. destruct items; [done|]. simpl in Hlen. subst n. discriminate. }
  assert (Hnone : errors sched = [] →
     completions e sched st1 =
     (invoke cb this [VNull; VArr (fill [] sched)]
        (set_closures
           (λ cs, <[e := mkParEnv this n cb (Z.of_nat n) (fill [] sched)]> cs) st1)).2).
  { intros Herr. apply completions_all_succeed; [|done|done].
    by apply errors_nil_all. }
  assert (Hsome : errors sched ≠ [] →
     completions e sched st1 =
     set_closures
       (λ _, <[e := env_after (mkParEnv this n cb 0 []) sched]> (closures st1))
       (invokes cb this ((λ err, [err]) <$> errors sched) st1)).
  { intros Herr. by apply completions_with_errors. }
  split; [exact Hnone|]. split; [exact Hsome|]. split.
  - intros f Hf.
    pose proof (parallel_callback_function _ _ _ Hf) as Hfun.
    destruct (errors sched) as [|err errs] eqn:E.
    + rewrite Hnone by done. rewrite Hf. simpl. unfold call. by rewrite Hfun.
    + rewrite Hsome by done. rewrite Hf.
      cbn [out set_closures]. rewrite invokes_given_out by done.
      by rewrite <- list_fmap_compose.
  - intros t Hcb Herr Ht.
    rewrite Hsome by done. rewrite Hcb. cbn [out set_closures].
    rewrite (invokes_done_errors this t); [done|done|apply errors_truthy].
Qed.

Lemma parallel_callback_per_error_witness :
  out (completions 0 [(0%nat, [VErr "errA"]); (1%nat, [VNull; VStr "rB"])]
                   (started [fnA; fnB])) =
  out (started [fnA; fnB]) ++
  [ECall user_done (ThisStep (demo_step 1)) [VErr "errA"]].
Proof.
  refine (proj1 (proj2 (proj2
    (parallel_callback_per_error (demo_step 1) [fnA; fnB] [user_done] demo_state
       [(0%nat, [VErr "errA"]); (1%nat, [VNull; VStr "rB"])] _ _))) user_done eq_refl).
  - discriminate.
  - unfold each_once. reflexivity.
Defined.

(** ** jump to a step that exists *)

Lemma _getStep_name t (i : nat) target :
  NoDup (_stepName <$> _steps t) → _steps t !! i = Some target →
  _getStep t (VStr (_stepName target)) = Some target.
Proof.
  intros Hnd Hi. unfold _getStep.
  destruct (List.find _ _) as [s|] eqn:E.
  - apply find_some in E as [Hin Heq].
    apply String.eqb_eq in Heq.
    apply list_elem_of_In, list_elem_of_lookup in Hin as [j Hj].
    assert (i = j) as ->; [|congruence].
    eapply NoDup_lookup; [exact Hnd| |].
    + by rewrite list_lookup_fmap, Hi.
    + by rewrite list_lookup_fmap, Hj, <- Heq.
  - exfalso. eapply find_none in E.
    + by rewrite String.eqb_refl in E.
    + by eapply list_elem_of_In, list_elem_of_lookup_2.
Qed.

Lemma targetStep_in t cur step target :
  targetStep t cur step = Some target → ∃ i : nat, _steps t !! i = Some target.
Proof.
  unfold targetStep, _getStep. destruct step; try discriminate.
  - destruct (0 <=? _); [|discriminate]. intros H. by eexists.
  - intros H. apply find_some in H as [Hin _].
    by apply list_elem_of_In, list_elem_of_lookup in Hin.
Qed.

(** X2. In a Task whose steps are numbered, [jump(i, ...args)] to the
    index of an existing step other than the current one makes [i] the
    current index and runs the Task from there with [args]; when the names
    of the steps are distinct, [jump(name, ...args)] with the name of that
    step does the same. *)
Theorem jump_to_existing (this : Step) (args : list value) (st : State)
    (t : Task) (i : nat) (target : Step) :
  tasks st !! _task this = Some t →
  steps_indexed t →
  _steps t !! i = Some target →
  Z.of_nat i ≠ _currIndex t →
  jump this (VNum (Z.of_nat i) :: args) st =
    (Normal VUndefined,
     emits (jump_trace this target ++ [ETaskRun (_task this) (Z.of_nat i) args])
           (set_tasks (λ ts, <[_task this := set_currIndex (Z.of_nat i) t]> ts) st))
  ∧ (NoDup (_stepName <$> _steps t) →
     jump this (VStr (_stepName target) :: args) st =
       (Normal VUndefined,
        emits (jump_trace this target ++ [ETaskRun (_task this) (Z.of_nat i) args])
              (set_tasks (λ ts, <[_task this := set_currIndex (Z.of_nat i) t]> ts) st))).
Proof.
  intros Ht Hwf Hi Hne. split.
  - apply jump_to_position with (target := target); try done.
    unfold targetStep.
    replace (Z.of_nat i <? 0) with false by (symmetry; apply Z.ltb_ge; lia).
    by apply _getStep_index.
  - intros Hnd.
    apply jump_to_position with (target := target); try done.
    unfold targetStep. by eapply _getStep_name.
Qed.

Lemma jump_to_existing_witness :
  jump (demo_step 1) [VNum 2; VStr "x"] demo_state =
    (Normal VUndefined,
     emits [ETaskRun 0%nat 2 [VStr "x"]]
           (set_tasks (λ ts, <[0%nat := set_currIndex 2 demo_task]> ts) demo_state))
  ∧ jump (demo_step 1) [VStr "save"; VStr "x"] demo_state =
      (Normal VUndefined,
       emits [ETaskRun 0%nat 2 [VStr "x"]]
             (set_tasks (λ ts, <[0%nat := set_currIndex 2 demo_task]> ts) demo_state)).
Proof.
  assert (Hwf : steps_indexed demo_task).
  { intros i s Hs. destruct i as [|[|[|i]]]; simpl in Hs; by inversion Hs. }
  destruct (jump_to_existing (demo_step 1) [VStr "x"] demo_state demo_task 2
              (demo_step 2) eq_refl Hwf eq_refl) as [Hidx Hname].
  { simpl. lia. }
  split; [exact Hidx|]. apply Hname.
  simpl.
  repeat (apply NoDup_cons_2;
          [intros H; repeat (apply elem_of_cons in H as [H|H]; [discriminate|]);
           by apply elem_of_nil in H|]).
  apply NoDup_nil_2.
Defined.

(** ** jump, whatever the reference *)

(** X3. On a Task whose steps are numbered, [jump] does one of three
    things, whatever its arguments: it throws, and the state is as it was;
    or it returns at once, and the state is as it was (the target is the
    current step); or, as the last thing it does, it calls [Task._run] with
    the index of an existing step other than the current one and the
    arguments after the reference.  So the index it hands to the Task is
    never out of range.  (What the handler that the Task then runs does is
    the handler's.) *)
Theorem jump_runs_existing_step (this : Step) (args : list value) (st : State)
    (t : Task) :
  tasks st !! _task this = Some t →
  steps_indexed t →
  (∃ e, jump this args st = (Throw e, st))
  ∨ jump this args st = (Normal VUndefined, st)
  ∨ (∃ (i : nat) target,
       _steps t !! i = Some target ∧ Z.of_nat i ≠ _currIndex t ∧
       jump this args st =
         (Normal VUndefined,
          emits (jump_trace this target ++
                 [ETaskRun (_task this) (Z.of_nat i) (tail args)])
                (set_tasks (λ ts, <[_task this := set_currIndex (Z.of_nat i) t]> ts)
                           st))).
Proof.
  intros Ht Hidx. destruct args as [|step args]; [left; by eexists|].
  destruct (targetStep t (_currIndex t) step) as [target|] eqn:Htarget.
  - assert (Hu : step ≠ VUndefined) by (by destruct step).
    destruct (targetStep_in _ _ _ _ Htarget) as [i Hi].
    destruct (decide (Z.of_nat i = _currIndex t)) as [Heq|Hne].
    + right. left.
      rewrite (jump_spec this step args t st Hu Ht), Htarget.
      rewrite (Hidx i target Hi).
      by replace (_ =? _) with true by (symmetry; apply Z.eqb_eq; lia).
    + right. right. exists i, target. split; [done|]. split; [done|].
      by apply jump_to_position.
  - left. destruct step; try (by eexists);
      (rewrite (jump_spec this _ args t st); [|done|done]);
      rewrite Htarget; by eexists.
Qed.

Lemma demo_task_wf : task_wf demo_task.
Proof.
  split; [|simpl; lia].
  intros i s Hs. destruct i as [|[|[|i]]]; simpl in Hs; by inversion Hs.
Qed.

Lemma jump_runs_existing_step_witness :
  (∃ e, jump (demo_step 1) [VNum 7] demo_state = (Throw e, demo_state))
  ∨ jump (demo_step 1) [VNum 7] demo_state = (Normal VUndefined, demo_state)
  ∨ (∃ (i : nat) target,
       _steps demo_task !! i = Some target ∧ Z.of_nat i ≠ _currIndex demo_task ∧
       jump (demo_step 1) [VNum 7] demo_state =
         (Normal VUndefined,
          emits (jump_trace (demo_step 1) target ++
                 [ETaskRun (_task (demo_step 1)) (Z.of_nat i) (tail [VNum 7])])
                (set_tasks
                   (λ ts, <[_task (demo_step 1) := set_currIndex (Z.of_nat i) demo_task]> ts)
                   demo_state))).
Proof.
  exact (jump_runs_existing_step (demo_step 1) [VNum 7] demo_state demo_task
           eq_refl (proj1 demo_task_wf)).
Defined.

(** ** next on a Task with numbered steps *)

Lemma next_advance this args t st target :
  tasks st !! _task this = Some t → steps_indexed t → 0 ≤ _currIndex t →
  _steps t !! Z.to_nat (_currIndex t + 1) = Some target →
  next this args st =
  (Normal VUndefined,
   emits (jump_trace this target ++ [ETaskRun (_task this) (_currIndex t + 1) args])
         (set_tasks (λ ts, <[_task this := set_currIndex (_currIndex t + 1) t]> ts) st)).
Proof.
  intros Ht Hwf H0 Htarget. unfold next.
  erewrite bind_Normal; [|by apply get_task_Some].
  pose proof (lookup_lt_Some _ _ _ Htarget) as Hlt.
  replace (_ <? _) with true by (symmetry; apply Z.ltb_lt; lia).
  pose proof (jump_to_position this (VNum (_currIndex t + 1)) args t st
                (Z.to_nat (_currIndex t + 1)) target) as Hj.
  rewrite Z2Nat.id in Hj by lia.
  apply Hj; try done; [|lia].
  unfold targetStep.
  replace (_ <? 0) with false by (symmetry; apply Z.ltb_ge; lia).
  rewrite <- (Z2Nat.id (_currIndex t + 1)) at 1 by lia.
  by apply _getStep_index.
Qed.

Lemma next_finish this args t st :
  tasks st !! _task this = Some t →
  Z.of_nat (length (_steps t)) ≤ _currIndex t + 1 →
  next this args st = (Normal VUndefined, emits (end_trace this t VNull) st).
Proof.
  intros Ht Hge. unfold next.
  erewrite bind_Normal; [|by apply get_task_Some].
  replace (_ <? _) with false by (symmetry; apply Z.ltb_ge; lia).
  by rewrite (end_spec this [] t st Ht).
Qed.

(** ** Steps that all call next *)

Lemma runs_of_app es1 es2 : runs_of (es1 ++ es2) = runs_of es1 ++ runs_of es2.
Proof. apply bind_app. Qed.

Lemma dones_of_app es1 es2 : dones_of (es1 ++ es2) = dones_of es1 ++ dones_of es2.
Proof. apply bind_app. Qed.

Lemma set_currIndex_same t : set_currIndex (_currIndex t) t = t.
Proof. by destruct t. Qed.

Lemma current_step_Some t :
  0 ≤ _currIndex t < Z.of_nat (length (_steps t)) →
  ∃ s, current_step t = Some s ∧ s ∈ _steps t.
Proof.
  intros [H0 Hlt]. unfold current_step.
  replace (0 <=? _) with true by (symmetry; apply Z.leb_le; lia).
  destruct (lookup_lt_is_Some_2 (_steps t) (Z.to_nat (_currIndex t))) as [s Hs]; [lia|].
  exists s. split; [done|by eapply list_elem_of_lookup_2].
Qed.

Lemma nexts_advance l k : ∀ st t,
  tasks st !! l = Some t → steps_indexed t →
  (∀ s, s ∈ _steps t → _task s = l) →
  0 ≤ _currIndex t →
  _currIndex t + Z.of_nat k < Z.of_nat (length (_steps t)) →
  ∃ es, nexts k l st =
          mkState (<[l := set_currIndex (_currIndex t + Z.of_nat k) t]> (tasks st))
                  (closures st) (out st ++ es)
        ∧ runs_of es = seqZ (_currIndex t + 1) (Z.of_nat k)
        ∧ dones_of es = [].
Proof.
  induction k as [|k IH]; intros st t Ht Hidx Hown H0 Hlt.
  - exists []. split; [|done]. simpl.
    rewrite Z.add_0_r, set_currIndex_same, insert_id, app_nil_r by done.
    by destruct st.
  - cbn [nexts]. rewrite Ht. cbn [mbind option_bind].
    destruct (current_step_Some t) as (s & -> & Hs); [lia|].
    pose proof (Hown s Hs) as Hl.
    destruct (lookup_lt_is_Some_2 (_steps t) (Z.to_nat (_currIndex t + 1)))
      as [target Htarget]; [lia|].
    rewrite (next_advance s [] t st target); [|by rewrite Hl|done|done|done].
    rewrite Hl. cbn [snd].
    edestruct (IH (emits (jump_trace s target ++ [ETaskRun l (_currIndex t + 1) []])
                     (set_tasks (λ ts, <[l := set_currIndex (_currIndex t + 1) t]> ts) st))
                  (set_currIndex (_currIndex t + 1) t))
      as (es & -> & Hruns & Hdones).
    + simpl. apply lookup_insert_eq.
    + done.
    + done.
    + simpl. lia.
    + simpl. lia.
    + eexists. split; [|split].
      * simpl. rewrite insert_insert_eq, <- app_assoc.
        unfold set_currIndex at 1. simpl.
        by replace (_currIndex t + 1 + Z.of_nat k) with (_currIndex t + Z.of_nat (S k))
          by lia.
      * rewrite !runs_of_app, Hruns. simpl.
        replace (runs_of (jump_trace s target)) with (@nil Z)
          by (unfold jump_trace; by destruct (_debug s)).
        simpl. rewrite (seqZ_cons (_currIndex t + 1)) by lia.
        do 2 f_equal; lia.
      * rewrite !dones_of_app, Hdones.
        unfold jump_trace. by destruct (_debug s).
Qed.

Lemma nexts_app l a : ∀ b st, nexts (a + b) l st = nexts b l (nexts a l st).
Proof.
  induction a as [|a IH]; intros b st; [done|].
  simpl. destruct (tasks st !! l ≫= current_step) eqn:E; [apply IH|].
  destruct b; [done|]. simpl. by rewrite E.
Qed.

(** X5. When the handler of every step does nothing but call
    [this.next()], a Task with numbered steps that all belong to it, at
    current index [i], runs from [i + 1], [i + 2], ... up to the last
    index, in that order, and then emits 'done' once, with null; nothing
    but the current index, which ends at the last step, has changed. *)
Theorem nexts_run_through (l : loc) (st : State) (t : Task) :
  tasks st !! l = Some t →
  steps_indexed t →
  (∀ s, s ∈ _steps t → _task s = l) →
  0 ≤ _currIndex t < Z.of_nat (length (_steps t)) →
  let last := Z.of_nat (length (_steps t)) - 1 in
  ∃ es,
    nexts (Z.to_nat (Z.of_nat (length (_steps t)) - _currIndex t)) l st =
      mkState (<[l := set_currIndex last t]> (tasks st)) (closures st) (out st ++ es)
    ∧ runs_of es = seqZ (_currIndex t + 1) (last - _currIndex t)
    ∧ dones_of es = [[VNull]].
Proof.
  intros Ht Hidx Hown [H0 Hlt] last.
  replace (Z.to_nat (Z.of_nat (length (_steps t)) - _currIndex t))
    with (Z.to_nat (last - _currIndex t) + 1)%nat by lia.
  rewrite nexts_app.
  destruct (nexts_advance l (Z.to_nat (last - _currIndex t)) st t)
    as (es & -> & Hruns & Hdones); try done; [lia|].
  rewrite Z2Nat.id in * by lia.
  replace (_currIndex t + (last - _currIndex t)) with last by lia.
  cbn [nexts]. cbn [tasks]. rewrite lookup_insert_eq. cbn [mbind option_bind].
  destruct (current_step_Some (set_currIndex last t)) as (s & -> & Hs);
    [simpl; lia|].
  simpl in Hs. pose proof (Hown s Hs) as Hl.
  rewrite (next_finish s [] (set_currIndex last t)); cycle 1.
  { rewrite Hl. apply lookup_insert_eq. }
  { simpl. lia. }
  exists (es ++ end_trace s (set_currIndex last t) VNull).
  split; [|split].
  - unfold emits, set_out. simpl. by rewrite app_assoc.
  - rewrite runs_of_app, Hruns.
    replace (runs_of (end_trace _ _ _)) with (@nil Z)
      by (unfold end_trace; by destruct (_debug s)).
    by rewrite app_nil_r.
  - rewrite dones_of_app, Hdones.
    unfold end_trace. by destruct (_debug s).
Qed.

Lemma nexts_run_through_witness :
  ∃ es, nexts 2 0%nat demo_state =
          mkState (<[0%nat := set_currIndex 2 demo_task]> (tasks demo_state))
                  (closures demo_state) (out demo_state ++ es)
        ∧ runs_of es = [2]
        ∧ dones_of es = [[VNull]].
Proof.
  refine (nexts_run_through 0%nat demo_state demo_task eq_refl (proj1 demo_task_wf) _
            (proj2 demo_task_wf)).
  intros s Hs. simpl in Hs.
  repeat (apply elem_of_cons in Hs as [->|Hs]; [reflexivity|]).
  by apply elem_of_nil in Hs.
Defined.

(** ** end, again and again *)

Lemma dones_of_end_trace this t err : dones_of (end_trace this t err) = [[err]].
Proof. unfold end_trace. by destruct (_debug this). Qed.

(** X6. [end] has no memory of having been called: every call returns,
    changes no Task, and emits 'done' once more, with its argument when
    that is truthy and with null otherwise (so that undefined, false, 0 and
    the empty string all end the Task without an error). *)
Theorem end_repeats (this : Step) (argss : list (list value)) (st : State)
    (t : Task) :
  tasks st !! _task this = Some t →
  ends this argss st =
    emits (argss ≫= λ a, end_trace this t
                           (if truthy (arg 0 a) then arg 0 a else VNull)) st
  ∧ dones_of (drop (length (out st)) (out (ends this argss st))) =
      (λ a, [if truthy (arg 0 a) then arg 0 a else VNull]) <$> argss.
Proof.
  intros Ht.
  assert (Hends : ∀ argss st, tasks st !! _task this = Some t →
    ends this argss st =
    emits (argss ≫= λ a, end_trace this t
                           (if truthy (arg 0 a) then arg 0 a else VNull)) st).
  { clear. intros argss. induction argss as [|a argss IH]; intros st Ht.
    - simpl. by rewrite emits_nil.
    - cbn [ends]. rewrite (end_spec this a t st Ht). cbn [snd].
      rewrite IH by done. by rewrite emits_emits. }
  split; [by apply Hends|].
  rewrite Hends by done. simpl. rewrite drop_app_length.
  clear. induction argss as [|a argss IH]; [done|].
  cbn [mbind list_bind fmap list_fmap].
  by rewrite dones_of_app, dones_of_end_trace, IH.
Qed.

Lemma end_repeats_witness :
  dones_of (drop (length (out demo_state))
              (out (ends (demo_step 1) [[VErr "x"]; [VNum 0]; []] demo_state))) =
  [[VErr "x"]; [VNull]; [VNull]].
Proof.
  exact (proj2 (end_repeats (demo_step 1) [[VErr "x"]; [VNum 0]; []] demo_state
                  demo_task eq_refl)).
Defined.

(** ** wrap *)

Lemma done_falsy this err rest st :
  truthy err = false →
  done this (err :: rest) st =
  (if isFunction (arg 0 rest) then call (arg 0 rest) (ThisStep this) (tail rest)
   else next this rest) (emits (done_trace this) st).
Proof.
  intros Herr. unfold done.
  change (arg 0 (err :: rest)) with err.
  change (tail (err :: rest)) with rest.
  replace (truthy match err with VUndefined => VNull | _ => err end) with false
    by (destruct err; simpl in *; congruence).
  erewrite bind_Normal; [|apply debug_log_spec].
  by destruct (isFunction (arg 0 rest)).
Qed.

(** X7. The function that [wrap()] returns is a Node-style callback for
    the step, whatever object it is called on: a truthy first argument ends
    the Task with it; otherwise a second argument that is not a function is
    passed on to [next], and one that is a function is called, on the step,
    with the arguments after it. *)
Theorem wrap_node_callback (this : Step) (on : receiver) (err data : value)
    (rest : list value) (st : State) (t : Task) :
  tasks st !! _task this = Some t →
  (truthy err = true →
     wrap this on (err :: data :: rest) st =
       (Normal VUndefined, emits (end_trace this t err) st))
  ∧ (truthy err = false → isFunction data = false →
     wrap this on (err :: data :: rest) st =
       next this (data :: rest) (emits (done_trace this) st))
  ∧ (truthy err = false → isFunction data = true →
     wrap this on (err :: data :: rest) st =
       (Normal VUndefined,
        emits (done_trace this ++ [ECall data (ThisStep this) rest]) st)).
Proof.
  intros Ht. unfold wrap. split; [|split].
  - intros Herr. rewrite (done_truthy this err _ st Herr).
    rewrite (end_spec this [err] t st Ht).
    change (arg 0 [err]) with err. by rewrite Herr.
  - intros Herr Hdata. rewrite (done_falsy this err _ st Herr).
    change (arg 0 (data :: rest)) with data. by rewrite Hdata.
  - intros Herr Hdata. rewrite (done_falsy this err _ st Herr).
    change (arg 0 (data :: rest)) with data. rewrite Hdata.
    unfold call. rewrite Hdata. unfold bind, effect_, ret. simpl.
    by rewrite emits_emits.
Qed.

Lemma wrap_node_callback_witness :
  wrap (demo_step 1) ThisUndefined [VErr "ENOENT"; VUndefined] demo_state =
    (Normal VUndefined, emits [ETaskEmit 0%nat "done" [VErr "ENOENT"]] demo_state).
Proof.
  exact (proj1 (wrap_node_callback (demo_step 1) ThisUndefined (VErr "ENOENT")
                  VUndefined [] demo_state demo_task eq_refl) eq_refl).
Defined.

(** ** fulfill, more than once *)

(** X9. The results collect what is fulfilled in the order of the calls,
    whichever steps of the Task make them: after [fulfill(...xs)] on one
    step and [fulfill(...ys)] on another, the results are the old ones,
    then [xs], then [ys].  [fulfill()] without values is no call at all:
    the state is as before. *)
Theorem fulfill_composes (this other : Step) (xs ys : list value) (st : State)
    (t : Task) :
  tasks st !! _task this = Some t →
  _task other = _task this →
  tasks (fulfill other ys (fulfill this xs st).2).2 =
    <[_task this := set_results (λ rs, rs ++ xs ++ ys) t]> (tasks st)
  ∧ fulfill this [] st = (Normal VUndefined, st).
Proof.
  intros Ht Hsame.
  assert (Hf : ∀ s vs st' t', tasks st' !! _task s = Some t' →
    fulfill s vs st' =
    (Normal VUndefined,
     mkState (<[_task s := set_results (λ rs, rs ++ vs) t']> (tasks st'))
             (closures st')
             (out st' ++ result_calls (_task s) (Some <$> vs) 0 vs))).
  { intros s vs st' t' Ht'. unfold fulfill, forEach.
    erewrite bind_Normal; [|by apply get_task_Some].
    erewrite bind_Normal; [|by apply forEach_result]. reflexivity. }
  split.
  - rewrite (Hf this xs st t Ht). cbn [snd].
    erewrite Hf; [|rewrite Hsame; apply lookup_insert_eq].
    cbn [snd tasks]. rewrite Hsame, insert_insert_eq. f_equal.
    unfold set_results. simpl. by rewrite <- app_assoc.
  - rewrite (Hf this [] st t Ht). f_equal.
    destruct st as [ts cs o]. simpl in *.
    by rewrite set_results_nil, insert_id, app_nil_r.
Qed.

Lemma fulfill_composes_witness :
  tasks (fulfill (demo_step 2) [VNum 2] (fulfill (demo_step 0) [VNum 1] demo_state).2).2 =
    <[0%nat := set_results (λ rs, rs ++ [VNum 1] ++ [VNum 2]) demo_task]>
      (tasks demo_state).
Proof.
  exact (proj1 (fulfill_composes (demo_step 0) (demo_step 2) [VNum 1] [VNum 2]
                  demo_state demo_task eq_refl eq_refl)).
Defined.

(** ** parallel: the call, when something is wrong with the arguments *)



Lemma forEach_from_stops e pre x post : ∀ i st,
  Forall (λ fn, isFunction fn = true) pre → isFunction x = false →
  forEach_from i (Some <$> pre ++ x :: post)
    (λ fn j, if negb (isFunction fn) then throw (VErr not_a_function_message)
             else call fn ThisUndefined [VFun (FBound e j)]) st =
  (Throw (VErr not_a_function_message),
   emits (imap (λ j fn, ECall fn ThisUndefined [VFun (FBound e (i + j))]) pre) st).
Proof.
  intros i st Hpre Hx. revert i st.
  induction Hpre as [|fn pre Hfn _ IH]; intros i st.
  - cbn [app fmap list_fmap forEach_from]. rewrite Hx. simpl negb. cbv iota.
    unfold bind, throw. simpl. by rewrite emits_nil.
  - cbn [app fmap list_fmap forEach_from]. rewrite Hfn. simpl negb. cbv iota.
    unfold call at 1. rewrite Hfn.
    unfold bind at 1 2, effect_, ret. simpl.
    rewrite IH, emits_emits. rewrite Nat.add_0_r. do 3 f_equal.
    apply imap_ext. intros j y _. simpl. do 4 f_equal. lia.
Qed.



(** X13. Shape (b) without an iterator: when the first item is not a
    function and the second argument is not one either, [parallel] throws
    a TypeError at the first item; nothing has been called, and the Tasks
    are as before. *)
Theorem parallel_no_iterator_throws (this : Step) (x : value)
    (items rest : list value) (st : State) :
  isFunction x = false →
  isFunction (arg 0 rest) = false →
  parallel this (Some <$> x :: items) rest st =
  (Throw TypeError,
   set_closures
     (λ cs, cs ++ [mkParEnv this (length (x :: items))
                     (parallel_callback (Some <$> x :: items) rest) 0 []]) st).
Proof.
  intros Hx Hit. unfold parallel, parallel_callback.
  change (array_get (Some <$> x :: items) 0) with x. rewrite Hx.
  unfold bind at 1, new_env. unfold forEach. rewrite length_fmap.
  erewrite bind_Throw; [reflexivity|].
  cbn [fmap list_fmap forEach_from]. unfold call. rewrite Hit.
  by unfold bind, throw.
Qed.

Lemma parallel_no_iterator_throws_witness :
  parallel (demo_step 1) (Some <$> [VStr "a.js"; VStr "b.js"]) [] demo_state =
  (Throw TypeError,
   set_closures (λ cs, cs ++ [mkParEnv (demo_step 1) 2 CbDone 0 []]) demo_state).
Proof.
  exact (parallel_no_iterator_throws (demo_step 1) (VStr "a.js") [VStr "b.js"] []
           demo_state eq_refl eq_refl).
Defined.

(** ** parallel: the call writes to no Task *)

Lemma forEach_from_tasks f a :
  (∀ x j st, tasks (f x j st).2 = tasks st) →
  ∀ i st, tasks (forEach_from i a f st).2 = tasks st.
Proof.
  intros Hf. induction a as [|[x|] a IH]; intros i st; simpl.
  - done.
  - unfold bind. pose proof (Hf x i st) as Hx.
    destruct (f x i st) as [[v|err] st']; simpl in *; [|done].
    by rewrite IH.
  - apply IH.
Qed.

Lemma call_tasks f on args st : tasks (call f on args st).2 = tasks st.
Proof. unfold call. by destruct (isFunction f). Qed.

Lemma parallel_tasks this arr rest st :
  tasks (parallel this arr rest st).2 = tasks st.
Proof.
  unfold parallel.
  destruct (isFunction (array_get arr 0)); unfold bind at 1, new_env;
    unfold bind, forEach;
    match goal with |- context [forEach_from 0 ?a ?f ?s] =>
      pose proof (forEach_from_tasks f a) as H;
      destruct (forEach_from 0 a f s) as [[v|err] st'] eqn:E;
      specialize (H ltac:(intros x j st0; simpl; try destruct (negb (isFunction x));
                          try reflexivity; apply call_tasks) 0%nat s);
      rewrite E in H; exact H
    end.
Qed.

(** ** parallel: completions are counted, not branches *)

Lemma env_after_app env s1 s2 :
  env_after env (s1 ++ s2) = env_after (env_after env s1) s2.
Proof.
  unfold env_after, fill, successes. simpl.
  rewrite List.filter_app, foldl_app, length_app. f_equal. lia.
Qed.

Lemma fires_short n sched : (S (length sched) ≤ n)%nat → fires n sched = [].
Proof.
  intros H. unfold fires.
  by replace (S (length sched) - n)%nat with 0%nat by lia.
Qed.

Lemma fires_snoc n sched c :
  (n ≤ S (length sched))%nat →
  fires n (sched ++ [c]) = fires n sched ++ [[VNull; VArr (fill [] (sched ++ [c]))]].
Proof.
  intros H. unfold fires. rewrite length_app. simpl.
  replace (S (length sched + 1) - n)%nat with (S (S (length sched) - n)) by lia.
  rewrite seq_S, fmap_app. simpl. f_equal.
  - apply list_fmap_ext. intros j m Hm.
    apply lookup_seq in Hm as [-> Hj].
    by rewrite take_app_le by lia.
  - replace (n + (S (length sched) - n))%nat with (S (length sched)) by lia.
    by rewrite take_ge by (rewrite length_app; simpl; lia).
Qed.

Lemma completions_fire this items rest st f sched :
  items ≠ [] →
  parallel_callback (Some <$> items) rest = CbGiven f →
  Forall (λ c, failed c = false) sched →
  closures (completions (length (closures st)) sched
              (parallel this (Some <$> items) rest st).2)
    !! length (closures st) =
    Some (env_after (mkParEnv this (length items) (CbGiven f) 0 []) sched)
  ∧ out (completions (length (closures st)) sched
           (parallel this (Some <$> items) rest st).2) =
    out (parallel this (Some <$> items) rest st).2 ++
    (ECall f (ThisStep this) <$> fires (length items) sched).
Proof.
  intros Hne Hcb.
  pose proof (parallel_callback_function _ _ _ Hcb) as Hf.
  assert (Hn : (1 ≤ length items)%nat) by (destruct items; [done|simpl; lia]).
  induction sched as [|[i args] sched IH] using rev_ind; intros Hok.
  - rewrite env_after_nil, fires_short by (simpl; lia).
    split; [|by rewrite app_nil_r].
    simpl. rewrite <- Hcb. apply parallel_env.
  - apply Forall_app in Hok as [Hinit Hlast]. apply Forall_inv in Hlast.
    destruct (IH Hinit) as [Henv Hout]. clear IH.
    rewrite completions_app. cbn [completions].
    set (S1 := completions _ sched _) in *.
    rewrite env_after_app.
    destruct (decide (S (length sched) < length items)%nat) as [Hlt|Hge].
    + rewrite (parallel_done_pending _ i args _ S1 Henv Hlast); last first.
      { simpl. rewrite successes_all by done. lia. }
      split.
      * simpl. apply list_lookup_insert_eq. by eapply lookup_lt_Some.
      * simpl. rewrite Hout, !fires_short; [done| |].
        -- rewrite length_app. simpl. lia.
        -- lia.
    + rewrite (parallel_done_last _ i args _ S1 Henv Hlast); last first.
      { simpl. rewrite successes_all by done. lia. }
      cbn [p_callback p_root env_after invoke]. unfold call. rewrite Hf.
      unfold bind, effect_, ret. cbn.
      split.
      * apply list_lookup_insert_eq. by eapply lookup_lt_Some.
      * rewrite Hout, fires_snoc, fmap_app by lia. rewrite <- app_assoc.
        do 2 f_equal. simpl. by rewrite fill_snoc.
Qed.

(** X15. The completion callbacks count calls and not branches.  With a
    function as callback and only successful completions, in whatever
    number and from whichever branches: nothing is called before the
    [items.length]-th completion; that one calls the callback with
    (null, result); and every completion after it calls the callback
    again, with [result] as it is then.  So a branch that calls back twice
    stands in for one that has not called back yet. *)
Theorem completions_fire_from_nth (this : Step) (items rest : list value)
    (st : State) (f : value) (sched : list (nat * list value)) :
  let n := length items in
  let e := length (closures st) in
  let st1 := (parallel this (Some <$> items) rest st).2 in
  items ≠ [] →
  parallel_callback (Some <$> items) rest = CbGiven f →
  Forall (λ c, failed c = false) sched →
  out (completions e sched st1) =
    out st1 ++ (ECall f (ThisStep this) <$> fires n sched)
  ∧ length (fires n sched) = (S (length sched) - n)%nat.
Proof.
  intros n e st1 Hne Hcb Hok. split.
  - by apply completions_fire.
  - unfold fires. by rewrite length_fmap, length_seq.
Qed.

Lemma completions_fire_from_nth_witness :
  out (completions 0 [(0%nat, [VNull; VStr "r"]); (0%nat, [VNull; VStr "r'"]);
                      (1%nat, [VNull; VStr "rB"])]
                   (started [fnA; fnB])) =
  out (started [fnA; fnB]) ++
  [ECall user_done (ThisStep (demo_step 1)) [VNull; VArr [Some (VStr "r'")]];
   ECall user_done (ThisStep (demo_step 1))
         [VNull; VArr [Some (VStr "r'"); Some (VStr "rB")]]].
Proof.
  refine (proj1 (completions_fire_from_nth (demo_step 1) [fnA; fnB] [user_done]
                   demo_state user_done
                   [(0%nat, [VNull; VStr "r"]); (0%nat, [VNull; VStr "r'"]);
                    (1%nat, [VNull; VStr "rB"])] _ eq_refl _)).
  - discriminate.
  - by repeat constructor.
Defined.

(** ** parallel: the default callback *)

(** X16. With no callback given, the results go to the next step: when
    every branch has completed once and successfully, the last completion
    calls [done(null, results)] on the step, which is [next(results)]; on a
    Task with numbered steps this runs the Task from the following index
    with the results array as the one argument, and at the last step it
    ends the Task with null. *)
Theorem parallel_default_advances (this : Step) (items rest : list value)
    (st : State) (sched : list (nat * list value)) (t : Task) :
  let n := length items in
  let e := length (closures st) in
  let st1 := (parallel this (Some <$> items) rest st).2 in
  let final := completions e sched st1 in
  items ≠ [] →
  parallel_callback (Some <$> items) rest = CbDone →
  each_once n sched →
  Forall (λ c, failed c = false) sched →
  tasks st !! _task this = Some t →
  steps_indexed t →
  0 ≤ _currIndex t →
  (∀ target, _steps t !! Z.to_nat (_currIndex t + 1) = Some target →
     tasks final = <[_task this := set_currIndex (_currIndex t + 1) t]> (tasks st)
     ∧ out final =
         out st1 ++ done_trace this ++ jump_trace this target ++
         [ETaskRun (_task this) (_currIndex t + 1) [VArr (fill [] sched)]])
  ∧ (Z.of_nat (length (_steps t)) ≤ _currIndex t + 1 →
     tasks final = tasks st
     ∧ out final = out st1 ++ done_trace this ++ end_trace this t VNull).
Proof.
  intros n e st1 final Hne Hcb Honce Hok Ht Hidx H0.
  pose proof (each_once_length _ _ Honce) as Hlen.
  assert (Hsched : sched ≠ []).
  { intros ->. destruct items; [done|]. simpl in Hlen. subst n. discriminate. }
  assert (Hfinal : final =
    (next this [VArr (fill [] sched)]
       (emits (done_trace this)
          (set_closures
             (λ cs, <[e := mkParEnv this n CbDone (Z.of_nat n) (fill [] sched)]> cs)
             st1))).2).
  { subst final e st1.
    rewrite (completions_all_succeed this items rest st sched Hok Hlen Hsched).
    rewrite Hcb. cbn [invoke].
    by rewrite (done_falsy this VNull). }
  set (S := emits _ _) in Hfinal.
  assert (HS : tasks S !! _task this = Some t).
  { subst S st1. simpl. by rewrite parallel_tasks. }
  assert (HtS : tasks S = tasks st) by (subst S st1; simpl; apply parallel_tasks).
  split.
  - intros target Htarget. rewrite Hfinal.
    rewrite (next_advance this _ t S target HS Hidx H0 Htarget).
    split; [cbn [snd emits set_out set_tasks tasks]; by rewrite HtS|].
    subst S. simpl. by rewrite <- !app_assoc.
  - intros Hge. rewrite Hfinal.
    rewrite (next_finish this _ t S HS Hge).
    split; [exact HtS|]. subst S. simpl. by rewrite <- !app_assoc.
Qed.

Lemma parallel_default_advances_witness :
  out (completions 0 [(1%nat, [VNull; VStr "rB"]); (0%nat, [VNull; VStr "rA"])]
         (parallel (demo_step 1) (Some <$> [fnA; fnB]) [] demo_state).2) =
  out (parallel (demo_step 1) (Some <$> [fnA; fnB]) [] demo_state).2 ++
  [ETaskRun 0%nat 2 [VArr [Some (VStr "rA"); Some (VStr "rB")]]].
Proof.
  refine (proj2 (proj1 (parallel_default_advances (demo_step 1) [fnA; fnB] []
                   demo_state [(1%nat, [VNull; VStr "rB"]); (0%nat, [VNull; VStr "rA"])]
                   demo_task _ eq_refl _ _ eq_refl (proj1 demo_task_wf) _)
                 (demo_step 2) eq_refl)).
  - discriminate.
  - apply perm_swap.
  - by repeat constructor.
  - simpl. lia.
Defined.

(** ** parallel: which argument is the callback *)

(** X17. The place of the callback depends on the first item.  When that
    is a function, the callback is the second argument, and a function
    given as third argument is never called; when it is not, the second
    argument is the iterator and the callback is the third.  In both
    shapes an argument in the callback's place that is not a function
    makes [done] the callback: then a branch's error ends the Task. *)
Theorem parallel_callback_position (this : Step) (arr : list (option value))
    (rest : list value) (st : State) (t : Task) (n : nat) (err : value) :
  let e := length (closures st) in
  let st1 := (parallel this arr rest st).2 in
  let final := completions e [(n, [err])] st1 in
  tasks st !! _task this = Some t →
  truthy err = true →
  (isFunction (array_get arr 0) = true →
     (isFunction (arg 0 rest) = true →
        out final = out st1 ++ [ECall (arg 0 rest) (ThisStep this) [err]])
     ∧ (isFunction (arg 0 rest) = false →
        out final = out st1 ++ end_trace this t err))
  ∧ (isFunction (array_get arr 0) = false →
     (isFunction (arg 1 rest) = true →
        out final = out st1 ++ [ECall (arg 1 rest) (ThisStep this) [err]])
     ∧ (isFunction (arg 1 rest) = false →
        out final = out st1 ++ end_trace this t err)).
Proof.
  intros e st1 final Ht Herr.
  assert (Henv : closures st1 !! e =
            Some (mkParEnv this (length arr) (parallel_callback arr rest) 0 [])).
  { subst st1 e. rewrite parallel_allocates.
    by rewrite lookup_app_r, Nat.sub_diag. }
  assert (Hfinal : final =
            (invoke (parallel_callback arr rest) this [err] st1).2).
  { subst final. cbn [completions].
    by rewrite (parallel_done_failed e n [err] _ st1 Henv Herr). }
  assert (Hgiven : ∀ f, isFunction f = true →
            out (invoke (CbGiven f) this [err] st1).2 =
            out st1 ++ [ECall f (ThisStep this) [err]]).
  { intros f Hf. simpl. unfold call. by rewrite Hf. }
  assert (Hdone : out (invoke CbDone this [err] st1).2 =
            out st1 ++ end_trace this t err).
  { cbn [invoke]. rewrite (done_truthy this err [] st1 Herr).
    rewrite (end_spec this [err] t st1).
    - change (arg 0 [err]) with err. by rewrite Herr.
    - subst st1. by rewrite parallel_tasks. }
  rewrite Hfinal. unfold parallel_callback.
  split; intros ->; split; intros Hf; rewrite Hf; auto.
Qed.

Lemma parallel_callback_position_witness :
  out (completions 0 [(0%nat, [VErr "errA"])]
         (parallel (demo_step 1) (Some <$> [fnA; fnB]) [VNull; user_done] demo_state).2) =
  out (parallel (demo_step 1) (Some <$> [fnA; fnB]) [VNull; user_done] demo_state).2 ++
  [ETaskEmit 0%nat "done" [VErr "errA"]].
Proof.
  exact (proj2 (proj1 (parallel_callback_position (demo_step 1) (Some <$> [fnA; fnB])
                         [VNull; user_done] demo_state demo_task 0 (VErr "errA")
                         eq_refl eq_refl) eq_refl) eq_refl).
Defined.

(** ** parallel: from the items to the results *)

Lemma first_non_function items :
  Forall (λ fn, isFunction fn = true) items
  ∨ ∃ pre x post, items = pre ++ x :: post
                  ∧ Forall (λ fn, isFunction fn = true) pre
                  ∧ isFunction x = false.
Proof.
  induction items as [|y items IH]; [by left|].
  destruct (isFunction y) eqn:Hy.
  - destruct IH as [IH|(pre & x & post & -> & Hpre & Hx)].
    + left. by constructor.
    + right. exists (y :: pre), x, post. repeat split; [by constructor|done].
  - right. by exists [], y, items.
Qed.

Lemma forEach_from_functions e xs : ∀ i st,
  Forall (λ fn, isFunction fn = true) xs →
  forEach_from i (Some <$> xs)
    (λ fn j, if negb (isFunction fn) then throw (VErr not_a_function_message)
             else call fn ThisUndefined [VFun (FBound e j)]) st =
  (Normal tt,
   emits (imap (λ j fn, ECall fn ThisUndefined [VFun (FBound e (i + j))]) xs) st).
Proof.
  intros i st Hall. revert i st.
  induction Hall as [|x xs Hx _ IH]; intros i st.
  - simpl. by rewrite emits_nil.
  - cbn [fmap list_fmap forEach_from]. rewrite Hx. simpl negb. cbv iota.
    unfold call at 1. rewrite Hx.
    unfold bind at 1 2, effect_, ret. simpl.
    rewrite IH, emits_emits. rewrite Nat.add_0_r. do 3 f_equal.
    apply imap_ext. intros j y _. simpl. do 4 f_equal. lia.
Qed.

(** When the call of [parallel] on a non-empty array returns, it has
    called a branch for every item, in order: the item itself, or the
    iterator on the item, with the completion callback bound to the
    item's index. *)
Lemma parallel_returned this items rest st :
  items ≠ [] →
  (parallel this (Some <$> items) rest st).1 = Normal VUndefined →
  ∃ g : nat → value → effect,
    (∀ i x, g i x = ECall x ThisUndefined [VFun (FBound (length (closures st)) i)]
            ∨ g i x = ECall (arg 0 rest) ThisUndefined
                        [x; VFun (FBound (length (closures st)) i)])
    ∧ out (parallel this (Some <$> items) rest st).2 = out st ++ imap g items.
Proof.
  intros Hne Hret.
  destruct (isFunction (array_get (Some <$> items) 0)) eqn:H0.
  - destruct (first_non_function items) as [Hall|(pre & x & post & -> & Hpre & Hx)].
    + exists (λ i x, ECall x ThisUndefined [VFun (FBound (length (closures st)) i)]).
      split; [by left|].
      unfold parallel. rewrite H0. unfold bind at 1, new_env. unfold forEach.
      erewrite bind_Normal; [|by apply forEach_from_functions]. reflexivity.
    + exfalso. revert Hret.
      unfold parallel. rewrite H0. unfold bind at 1, new_env. unfold forEach.
      erewrite bind_Throw; [done|]. by apply forEach_from_stops.
  - destruct (isFunction (arg 0 rest)) eqn:Hit.
    + exists (λ i x, ECall (arg 0 rest) ThisUndefined
                       [x; VFun (FBound (length (closures st)) i)]).
      split; [by right|].
      unfold parallel. rewrite H0. unfold bind at 1, new_env. unfold forEach.
      erewrite bind_Normal; last first.
      { apply (forEach_from_calls _
          (λ j a, ECall (arg 0 rest) ThisUndefined
                    [a; VFun (FBound (length (closures st)) j)])).
        intros x j st'. unfold call. by rewrite Hit. }
      reflexivity.
    + exfalso. destruct items as [|x items]; [done|]. revert Hret.
      unfold parallel. rewrite H0. unfold bind at 1, new_env. unfold forEach.
      erewrite bind_Throw; [done|].
      cbn [fmap list_fmap forEach_from]. unfold call. rewrite Hit.
      by unfold bind, throw.
Qed.

Lemma handed_out_cons a es : handed_out (a :: es) = handed_out [a] ++ handed_out es.
Proof. unfold handed_out. simpl. by rewrite app_nil_r. Qed.

Lemma handed_out_imap e (g : nat → value → effect) items :
  (∀ i x, g i x = ECall x ThisUndefined [VFun (FBound e i)]
          ∨ ∃ it, g i x = ECall it ThisUndefined [x; VFun (FBound e i)]) →
  ∀ k, handed_out (imap (λ i, g (k + i)%nat) items) =
       (λ i, VFun (FBound e i)) <$> seq k (length items).
Proof.
  intros Hg. induction items as [|x items IH]; intros k; [done|].
  rewrite imap_cons. cbn [length seq fmap list_fmap].
  rewrite handed_out_cons, Nat.add_0_r.
  assert (handed_out [g k x] = [VFun (FBound e k)]) as ->
    by (destruct (Hg k x) as [->|[it ->]]; reflexivity).
  simpl. f_equal. rewrite <- IH. f_equal.
  apply imap_ext. intros i y _. simpl. f_equal. lia.
Qed.

Lemma callbacks_completions e sched :
  Forall (λ c, ∃ i, c.1 = VFun (FBound e i)) sched →
  ∀ st, callbacks sched st =
        completions e ((λ c, (bound_index c.1, c.2)) <$> sched) st.
Proof.
  induction 1 as [|[c a] sched [i Hc] _ IH]; intros st; [done|].
  simpl in Hc. subst c. cbn [callbacks fmap list_fmap completions fst snd].
  cbn [call_handed bound_index]. apply IH.
Qed.

(** C3 fails as stated at the empty array: the call returns, there is no
    branch that has not completed successfully, and the callback receives
    nothing. *)
Lemma parallel_empty_delivers_nothing :
  (parallel (demo_step 1) (Some <$> []) [VNull; user_done] demo_state).1 =
    Normal VUndefined
  ∧ ¬ receives_results (demo_step 1) [] [VNull; user_done] demo_state [] user_done.
Proof.
  split; [reflexivity|].
  intros [results Hin]. vm_compute in Hin. by apply elem_of_nil in Hin.
Qed.

(** C3, amended: for a non-empty [items].  When the call of [parallel]
    has returned, every item has had its branch called, with a completion
    callback of its own; when each of these callbacks is then called once,
    successfully, in whatever order, the aggregation callback is called
    with (null, results) by the last of these calls and not before (after
    fewer than [items.length] of them nothing has been called and no Task
    has changed).  [results] has the length of [items], and the result
    that the branch of item [i] gave to its callback is at index [i]. *)
Theorem parallel_results_aligned (this : Step) (items rest : list value)
    (st : State) (sched : list (value * list value)) :
  let n := length items in
  let e := length (closures st) in
  let cb := parallel_callback (Some <$> items) rest in
  let st1 := (parallel this (Some <$> items) rest st).2 in
  let issued := drop (length (out st)) (out st1) in
  items ≠ [] →
  (parallel this (Some <$> items) rest st).1 = Normal VUndefined →
  sched.*1 ≡ₚ handed_out issued →
  Forall (λ c, truthy (arg 0 c.2) = false) sched →
  ∃ results,
    (∀ i x, items !! i = Some x →
       ∃ c, handed_out issued !! i = Some c
            ∧ (issued !! i = Some (ECall x ThisUndefined [c])
               ∨ issued !! i = Some (ECall (arg 0 rest) ThisUndefined [x; c])))
    ∧ callbacks sched st1 =
        (invoke cb this [VNull; VArr results]
           (set_closures (λ cs, <[e := mkParEnv this n cb (Z.of_nat n) results]> cs)
                         st1)).2
    ∧ length results = n
    ∧ (∀ i c args, handed_out issued !! i = Some c → (c, args) ∈ sched →
         results !! i = Some (Some (arg 1 args)))
    ∧ (∀ k, (k < n)%nat →
         tasks (callbacks (take k sched) st1) = tasks st1
         ∧ out (callbacks (take k sched) st1) = out st1)
    ∧ (∀ f, cb = CbGiven f →
         out (callbacks sched st1) =
         out st1 ++ [ECall f (ThisStep this) [VNull; VArr results]]).
Proof.
  intros n e cb st1 issued Hne Hret Hperm Hok.
  destruct (parallel_returned this items rest st Hne Hret) as (g & Hg & Hout).
  assert (Hissued : issued = imap g items).
  { subst issued st1. by rewrite Hout, drop_app_length. }
  assert (Hhanded : handed_out issued = (λ i, VFun (FBound e i)) <$> seq 0 n).
  { rewrite Hissued. apply (handed_out_imap e g items) with (k := 0%nat).
    intros i x. destruct (Hg i x) as [-> | ->]; [by left|right; by eexists]. }
  rewrite Hhanded in *.
  assert (Hat : ∀ i c, ((λ i, VFun (FBound e i)) <$> seq 0 n) !! i = Some c →
                       c = VFun (FBound e i) ∧ (i < n)%nat).
  { intros i c Hi. rewrite list_lookup_fmap in Hi.
    destruct (seq 0 n !! i) as [j|] eqn:Hj; [|done].
    apply lookup_seq in Hj as [-> Hlt]. simpl in Hi. by inversion Hi. }
  assert (Hbound : Forall (λ c, ∃ i, c.1 = VFun (FBound e i)) sched).
  { apply Forall_forall. intros c Hc.
    assert (c.1 ∈ sched.*1) as Hin by (apply list_elem_of_fmap; by exists c).
    rewrite Hperm in Hin. apply list_elem_of_fmap in Hin as (i & -> & _).
    by exists i. }
  set (sched' := (λ c, (bound_index c.1, c.2)) <$> sched).
  assert (Honce : each_once n sched').
  { unfold each_once. subst sched'.
    rewrite <- list_fmap_compose.
    replace (fst ∘ (λ c : value * list value, (bound_index c.1, c.2)))
      with (bound_index ∘ fst : value * list value → nat) by done.
    rewrite list_fmap_compose, Hperm, <- list_fmap_compose.
    assert (Hid : ∀ l : list nat,
              (bound_index ∘ (λ i, VFun (FBound e i))) <$> l = l)
      by (intros l; induction l as [|j l IHl]; [done|];
          cbn [fmap list_fmap]; rewrite IHl; reflexivity).
    by rewrite Hid. }
  assert (Hok' : Forall (λ c, failed c = false) sched').
  { subst sched'. apply Forall_fmap. eapply Forall_impl; [exact Hok|done]. }
  destruct (completions_results_aligned this items rest st sched' Hne Honce Hok')
    as (Hall & Hlen & Halign & Hwait & Hgiven).
  assert (Hcb : ∀ k, callbacks (take k sched) st1 = completions e (take k sched') st1).
  { intros k. subst sched'. rewrite <- fmap_take.
    apply callbacks_completions. by apply Forall_take. }
  assert (Hcb' : callbacks sched st1 = completions e sched' st1).
  { by apply callbacks_completions. }
  exists (fill [] sched'). split; [|split; [|split; [|split; [|split]]]].
  - intros i x Hx. exists (VFun (FBound e i)). split.
    + rewrite list_lookup_fmap, lookup_seq_lt; [done|].
      by eapply lookup_lt_Some.
    + rewrite Hissued, list_lookup_imap, Hx. simpl.
      destruct (Hg i x) as [-> | ->]; [by left|by right].
  - by rewrite Hcb'.
  - exact Hlen.
  - intros i c args Hi Hin. apply Hat in Hi as [-> _].
    apply Halign. subst sched'. apply list_elem_of_fmap.
    by exists (VFun (FBound e i), args).
  - intros k Hk. rewrite Hcb. by apply Hwait.
  - intros f Hf. rewrite Hcb'. by apply Hgiven.
Qed.

Lemma parallel_results_aligned_witness :
  ∃ results,
    results !! 0%nat = Some (Some (VStr "rA"))
    ∧ results !! 1%nat = Some (Some (VStr "rB"))
    ∧ results !! 2%nat = Some (Some (VStr "rC"))
    ∧ length results = 3%nat
    ∧ out (callbacks [(VFun (FBound 0 1), [VNull; VStr "rB"]);
                      (VFun (FBound 0 0), [VNull; VStr "rA"]);
                      (VFun (FBound 0 2), [VNull; VStr "rC"])]
                     (started [fnA; fnB; fnC])) =
      out (started [fnA; fnB; fnC]) ++
      [ECall user_done (ThisStep (demo_step 1)) [VNull; VArr results]].
Proof.
  destruct (parallel_results_aligned (demo_step 1) [fnA; fnB; fnC] [user_done]
              demo_state
              [(VFun (FBound 0 1), [VNull; VStr "rB"]);
               (VFun (FBound 0 0), [VNull; VStr "rA"]);
               (VFun (FBound 0 2), [VNull; VStr "rC"])])
    as (results & _ & _ & Hlen & Halign & _ & Hout).
  - discriminate.
  - reflexivity.
  - apply perm_swap.
  - by repeat constructor.
  - exists results.
    split; [apply (Halign 0%nat (VFun (FBound 0 0)) [VNull; VStr "rA"] eq_refl);
            rewrite !elem_of_cons; auto|].
    split; [apply (Halign 1%nat (VFun (FBound 0 1)) [VNull; VStr "rB"] eq_refl);
            rewrite !elem_of_cons; auto|].
    split; [apply (Halign 2%nat (VFun (FBound 0 2)) [VNull; VStr "rC"] eq_refl);
            rewrite !elem_of_cons; auto|].
    split; [exact Hlen|].
    exact (Hout user_done eq_refl).
Defined.
